(** * Lyrics overlay: a shallow embedding of [main7.py]

    The synchronisation core of the overlay ([LyricsOverlay] in
    [main7.py]) is embedded as executable definitions:

    - Python [str] values are [string]s whose characters are the code
      points U+0000..U+00FF (one [ascii] per code point);
    - Python [float] seconds are exact rationals ([Q], kept reduced), so
      rounding of the binary representation is not part of the model;
    - the [re] patterns of the source are values of a small pattern type
      run by a backtracking matcher with Python's greedy semantics;
    - the HTTP layer, the window list and the clock are explicit inputs;
    - exceptions are a [result] and [self] is a record threaded through
      the methods. *)

From Stdlib Require Import Bool Arith List Ascii String NArith ZArith QArith Lia.
From Stdlib Require Import Qabs Lqa Permutation Sorted.
Import ListNotations.

#[local] Set Warnings "-register-all".

Open Scope string_scope.
Open Scope list_scope.

(** ** Characters and the [str] methods the source calls *)

Module Str.

Definition code (c : ascii) : N := N_of_ascii c.

(** [str.isspace] on U+0000..U+00FF; [\s] of [re] agrees with it. *)
Definition is_space (c : ascii) : bool :=
  let n := code c in
  ((9 <=? n) && (n <=? 13) || (28 <=? n) && (n <=? 32)
   || (n =? 133) || (n =? 160))%N.

(** [\d] of [re] on U+0000..U+00FF: the ten ASCII digits. *)
Definition is_digit (c : ascii) : bool :=
  let n := code c in ((48 <=? n) && (n <=? 57))%N.

(** [str.lower] on one code point of U+0000..U+00FF. *)
Definition lower_char (c : ascii) : ascii :=
  let n := code c in
  if ((65 <=? n) && (n <=? 90)
      || (192 <=? n) && (n <=? 222) && negb (n =? 215))%N
  then ascii_of_N (n + 32) else c.

Fixpoint lower (s : string) : string :=
  match s with
  | EmptyString => EmptyString
  | String c s' => String (lower_char c) (lower s')
  end.

Definition is_empty (s : string) : bool :=
  match s with EmptyString => true | _ => false end.

(** Python truthiness of a [str]. *)
Definition truthy (s : string) : bool := negb (is_empty s).

Fixpoint lstrip (s : string) : string :=
  match s with
  | String c s' => if is_space c then lstrip s' else s
  | EmptyString => EmptyString
  end.

Fixpoint rstrip (s : string) : string :=
  match s with
  | EmptyString => EmptyString
  | String c s' =>
      let r := rstrip s' in
      if is_space c && is_empty r then EmptyString else String c r
  end.

(** [s.strip()] *)
Definition strip (s : string) : string := rstrip (lstrip s).

Definition starts_word (s : string) : bool :=
  match s with
  | String c _ => negb (is_space c)
  | EmptyString => false
  end.

(** [s.split()]: the maximal runs of non-whitespace characters. *)
Fixpoint split_ws (s : string) : list string :=
  match s with
  | EmptyString => []
  | String c s' =>
      if is_space c then split_ws s'
      else if starts_word s' then
        match split_ws s' with
        | w :: ws => String c w :: ws
        | [] => [String c EmptyString]
        end
      else String c EmptyString :: split_ws s'
  end.

(** [sep.join(ws)] *)
Fixpoint join (sep : string) (ws : list string) : string :=
  match ws with
  | [] => EmptyString
  | [w] => w
  | w :: ws' => w ++ sep ++ join sep ws'
  end.

(** [' '.join(s.split())] *)
Definition normalize_ws (s : string) : string := join " " (split_ws s).

(** [s.split(sep)] for a one-character separator. *)
Fixpoint split_on (sep : ascii) (s : string) : list string :=
  match s with
  | EmptyString => [EmptyString]
  | String c s' =>
      if Ascii.eqb c sep then EmptyString :: split_on sep s'
      else
        match split_on sep s' with
        | w :: ws => String c w :: ws
        | [] => [String c EmptyString]
        end
  end.

Fixpoint drop (n : nat) (s : string) : string :=
  match n, s with
  | S k, String _ s' => drop k s'
  | _, _ => s
  end.

Fixpoint take (n : nat) (s : string) : string :=
  match n, s with
  | S k, String c s' => String c (take k s')
  | _, _ => EmptyString
  end.

(** The first occurrence of [sep] in [s]: what is before it and what is
    after it ([s.split(sep, 1)] when [sep in s]). *)
Fixpoint split_once (sep s : string) : option (string * string) :=
  if prefix sep s then Some (EmptyString, drop (length sep) s)
  else
    match s with
    | EmptyString => None
    | String c s' =>
        match split_once sep s' with
        | Some (a, b) => Some (String c a, b)
        | None => None
        end
    end.

(** [sub in s] *)
Definition contains (sub s : string) : bool :=
  match split_once sub s with Some _ => true | None => false end.

(** [int(s)] for a string of ASCII digits. *)
Definition digit_val (c : ascii) : Z := Z.of_N (code c) - 48.

Fixpoint int_of_acc (acc : Z) (s : string) : Z :=
  match s with
  | EmptyString => acc
  | String c s' => int_of_acc (10 * acc + digit_val c) s'
  end.

Definition int_of (s : string) : Z := int_of_acc 0 s.

End Str.

(** ** The fragment of [re] used by the source *)

Module Re.

(** Character classes. *)
Inductive cls : Type :=
| Chr (c : ascii)        (* the character itself *)
| NotChr (c : ascii)     (* [^c] *)
| Space                  (* \s *)
| Digit                  (* \d *)
| Dot.                   (* . : anything but a newline *)

(** Pattern items; a pattern is their sequence. Every repetition of the
    source is over a single character class. *)
Inductive atom : Type :=
| One (p : cls)
| Star (p : cls)         (* greedy p* *)
| Plus (p : cls)         (* greedy p+ *)
| Eos                    (* $ *)
| Open                   (* ( of a capturing group *)
| Close.                 (* ) of a capturing group *)

Definition pattern : Type := list atom.

Definition newline : ascii := ascii_of_N 10.

#[global] Arguments newline : simpl never.

Definition chr_eq (icase : bool) (a b : ascii) : bool :=
  if icase then Ascii.eqb (Str.lower_char a) (Str.lower_char b)
  else Ascii.eqb a b.

Definition cls_match (icase : bool) (p : cls) (c : ascii) : bool :=
  match p with
  | Chr a => chr_eq icase a c
  | NotChr a => negb (chr_eq icase a c)
  | Space => Str.is_space c
  | Digit => Str.is_digit c
  | Dot => negb (Ascii.eqb c newline)
  end.

(** [$] without MULTILINE: the end of the string, or just before a
    newline that ends the string. *)
Definition at_end (s : string) : bool :=
  match s with
  | EmptyString => true
  | String c EmptyString => Ascii.eqb c newline
  | _ => false
  end.

(** The literal characters of a string, as pattern items. *)
Fixpoint lits (s : string) : pattern :=
  match s with
  | EmptyString => []
  | String c s' => One (Chr c) :: lits s'
  end.

Section Matcher.

Variable icase : bool.

(** Greedy repetition with backtracking: the longest run first, then
    shorter ones until the rest of the pattern ([k]) matches. *)
Fixpoint star {A : Type} (p : cls) (k : string -> nat -> option A)
  (s : string) (pos : nat) : option A :=
  match s with
  | String c s' =>
      if cls_match icase p c then
        match star p k s' (S pos) with
        | Some r => Some r
        | None => k s pos
        end
      else k s pos
  | EmptyString => k s pos
  end.

(** Match [pat] at the head of [s]. [pos] counts the characters consumed
    so far, [start] is where the open group began and [groups] are the
    spans of the groups closed so far. The result is the end of the
    match and the group spans. *)
Fixpoint match_here (pat : pattern) (s : string) (pos start : nat)
  (groups : list (nat * nat)) : option (nat * list (nat * nat)) :=
  match pat with
  | [] => Some (pos, groups)
  | One p :: rest =>
      match s with
      | String c s' =>
          if cls_match icase p c
          then match_here rest s' (S pos) start groups
          else None
      | EmptyString => None
      end
  | Star p :: rest =>
      star p (fun s' pos' => match_here rest s' pos' start groups) s pos
  | Plus p :: rest =>
      match s with
      | String c s' =>
          if cls_match icase p c
          then star p (fun s' pos' => match_here rest s' pos' start groups)
                 s' (S pos)
          else None
      | EmptyString => None
      end
  | Eos :: rest =>
      if at_end s then match_here rest s pos start groups else None
  | Open :: rest => match_here rest s pos pos groups
  | Close :: rest => match_here rest s pos start (groups ++ [(start, pos)])
  end.

(** [re.match(pat, s)]: the captured groups, in order. *)
Definition re_match (pat : pattern) (s : string) : option (list string) :=
  match match_here pat s 0 0 [] with
  | Some (_, groups) =>
      Some (map (fun g => substring (fst g) (snd g - fst g) s) groups)
  | None => None
  end.

(** Length of the match of [pat] at the head of [s]. *)
Definition match_len (pat : pattern) (s : string) : option nat :=
  match match_here pat s 0 0 [] with
  | Some (n, _) => Some n
  | None => None
  end.

(** [re.sub(pat, '', s)] from left to right; [skip] is what is left of
    the match being deleted. *)
Fixpoint sub_from (pat : pattern) (s : string) (skip : nat) : string :=
  match s with
  | EmptyString => EmptyString
  | String c s' =>
      match skip with
      | S k => sub_from pat s' k
      | O =>
          match match_len pat s with
          | Some (S n) => sub_from pat s' n
          | _ => String c (sub_from pat s' 0)
          end
      end
  end.

Definition re_sub (pat : pattern) (s : string) : string := sub_from pat s 0.

(** Whether [pat] matches somewhere in [s], as [re.search] would find;
    the source does not call it, the statements on [re_sub] do. *)
Fixpoint re_search (pat : pattern) (s : string) : bool :=
  match match_len pat s with
  | Some _ => true
  | None =>
      match s with
      | EmptyString => false
      | String _ s' => re_search pat s'
      end
  end.

End Matcher.

End Re.

(** ** Title cleaning and parsing *)

Import Re.

(** [r'\s*-\s*YouTube.*$'] *)
Definition youtube_suffix : pattern :=
  [Star Space; One (Chr "-"); Star Space] ++ lits "YouTube" ++ [Star Dot; Eos].

(** [r'\s*\|.*$'] *)
Definition pipe_suffix : pattern :=
  [Star Space; One (Chr "|"); Star Dot; Eos].

(** [r'\([^)]*word[^)]*\)'] *)
Definition paren_group (word : pattern) : pattern :=
  [One (Chr "("); Star (NotChr ")")] ++ word
    ++ [Star (NotChr ")"); One (Chr ")")].

(** [r'\[[^\]]*word[^\]]*\]'] *)
Definition bracket_group (word : pattern) : pattern :=
  [One (Chr "["); Star (NotChr "]")] ++ word
    ++ [Star (NotChr "]"); One (Chr "]")].

(** The [patterns] list of [clean_title], in its order. *)
Definition patterns : list pattern :=
  [ paren_group (lits "official"); bracket_group (lits "official");
    paren_group (lits "audio"); bracket_group (lits "audio");
    paren_group (lits "video"); bracket_group (lits "video");
    paren_group (lits "lyric"); bracket_group (lits "lyric");
    paren_group (lits "live"); paren_group (lits "cover");
    paren_group (lits "remix"); paren_group (lits "HD");
    paren_group [Plus Digit; One (Chr "p")]; bracket_group (lits "HQ") ].

Definition clean_title (title : string) : string :=
  let title := re_sub true youtube_suffix title in
  let title := re_sub false pipe_suffix title in
  let title := fold_left (fun t p => re_sub true p t) patterns title in
  Str.normalize_ws title.

(** [r"'([^']+)'\s+(.+)"] *)
Definition quoted_title : pattern :=
  [One (Chr "'"); Open; Plus (NotChr "'"); Close; One (Chr "'");
   Plus Space; Open; Plus Dot; Close].

(** [parse_song]: (artist, song, cleaned title). *)
Definition parse_song (title : string) : string * string * string :=
  let clean := clean_title title in
  match Str.split_once " - " clean with
  | Some (a, b) => (Str.strip a, Str.strip b, clean)
  | None =>
      match re_match false quoted_title clean with
      | Some [g1; g2] => (Str.strip g2, Str.strip g1, clean)
      | _ => (EmptyString, Str.strip clean, clean)
      end
  end.

(** ** Lyric lines and the LRC decoder *)

Record Lyric : Type := { time : Q; text : string }.

Definition Qlt_bool (a b : Q) : bool := negb (Qle_bool b a).

(** The timestamp pattern of [parse_lrc]: an opening bracket, the groups
    [\d+] colon [\d+] dot [\d+], a closing bracket, and the rest of the
    line as the fourth group. *)
Definition timestamp_line : pattern :=
  [One (Chr "["); Open; Plus Digit; Close; One (Chr ":");
   Open; Plus Digit; Close; One (Chr ".");
   Open; Plus Digit; Close; One (Chr "]"); Open; Star Dot; Close].

(** [minutes * 60 + seconds + centis / 100] *)
Definition total_sec (minutes seconds centis : Z) : Q :=
  Qred (inject_Z (minutes * 60 + seconds) + inject_Z centis / 100).

(** The body of the loop of [parse_lrc] for one line. *)
Definition parse_line (line : string) : option Lyric :=
  match re_match false timestamp_line (Str.strip line) with
  | Some [g1; g2; g3; g4] =>
      let minutes := Str.int_of g1 in
      let seconds := Str.int_of g2 in
      let centis := Str.int_of g3 in
      let text := Str.strip g4 in
      if Str.truthy text
      then Some {| time := total_sec minutes seconds centis; text := text |}
      else None
  | _ => None
  end.

Fixpoint collect (lines : list string) : list Lyric :=
  match lines with
  | [] => []
  | line :: rest =>
      match parse_line line with
      | Some l => l :: collect rest
      | None => collect rest
      end
  end.

(** [sorted(xs, key=lambda x: x['time'])]: a stable sort that compares
    keys with [<] only. *)
Fixpoint insert (x : Lyric) (l : list Lyric) : list Lyric :=
  match l with
  | [] => [x]
  | y :: l' =>
      if Qlt_bool (time y) (time x) then y :: insert x l' else x :: l
  end.

Definition sorted (l : list Lyric) : list Lyric := fold_right insert [] l.

Definition parse_lrc (lrc_text : string) : list Lyric :=
  sorted (collect (Str.split_on newline lrc_text)).

(** ** Exceptions and the state-and-exception monad *)

Inductive exn : Type :=
| RequestException       (* timeout, connection error, ... *)
| JSONDecodeError
| AttributeError
| KeyError
| TypeError.

Inductive result (A : Type) : Type :=
| Ok (a : A)
| Raise (e : exn).

Arguments Ok {A} a.
Arguments Raise {A} e.

(** A computation over a state [S]: what it leaves in the state, and a
    value or the exception it raised. Writes made before an exception
    stay. *)
Definition M (S A : Type) : Type := S -> S * result A.

Definition ret {S A : Type} (a : A) : M S A := fun s => (s, Ok a).

Definition raise {S A : Type} (e : exn) : M S A := fun s => (s, Raise e).

Definition bind {S A B : Type} (m : M S A) (k : A -> M S B) : M S B :=
  fun s =>
    match m s with
    | (s', Ok a) => k a s'
    | (s', Raise e) => (s', Raise e)
    end.

(** [try: m  except: h] *)
Definition try_except {S A : Type} (m : M S A) (h : exn -> M S A) : M S A :=
  fun s =>
    match m s with
    | (s', Ok a) => (s', Ok a)
    | (s', Raise e) => h e s'
    end.

(** [try: m  finally: f], for an [f] that cannot raise. *)
Definition try_finally {S A : Type} (m : M S A) (f : S -> S) : M S A :=
  fun s => let (s', r) := m s in (f s', r).

Definition modify {S : Type} (f : S -> S) : M S unit :=
  fun s => (f s, Ok tt).

Declare Scope monad_scope.
Delimit Scope monad_scope with monad.
Notation "x <- m ;; k" := (bind m (fun x => k))
  (at level 61, m at next level, right associativity) : monad_scope.
Notation "m ;;; k" := (bind m (fun _ => k))
  (at level 61, right associativity) : monad_scope.

(** ** JSON payloads and the HTTP layer *)

(** What [resp.json()] returns. An object keeps its members as an
    association list read from the left. *)
Inductive json : Type :=
| JNull
| JBool (b : bool)
| JNum (q : Q)
| JStr (s : string)
| JArr (xs : list json)
| JObj (members : list (string * json)).

(** Python truthiness of a decoded value. *)
Definition json_truthy (v : json) : bool :=
  match v with
  | JNull => false
  | JBool b => b
  | JNum q => negb (Qeq_bool q 0)
  | JStr s => Str.truthy s
  | JArr xs => match xs with [] => false | _ => true end
  | JObj ms => match ms with [] => false | _ => true end
  end.

Fixpoint assoc (key : string) (ms : list (string * json)) : option json :=
  match ms with
  | [] => None
  | (k, v) :: rest => if String.eqb k key then Some v else assoc key rest
  end.

Inductive request : Type :=
| ApiGet (params : list (string * string))     (* GET /api/get *)
| ApiSearch (params : list (string * string))  (* GET /api/search *)
| ApiGetId (id : json).                        (* GET /api/get/{id} *)

(** A response: its status code and its decoded body ([None] when
    [resp.json()] raises). *)
Record response : Type := { status_code : Z; body : option json }.

(** The HTTP layer: what the n-th call of a run does with the request it
    is given, a response or an exception of [requests]. *)
Definition Net : Type := nat -> request -> result response.

Section Client.

Local Open Scope monad_scope.

Variable net : Net.

(** The state of the client is the list of requests sent so far. *)
Definition requests_get (r : request) : M (list request) response :=
  fun log => (log ++ [r], net (List.length log) r).

(** [resp.json()] *)
Definition resp_json {S : Type} (r : response) : M S json :=
  match body r with
  | Some v => ret v
  | None => raise JSONDecodeError
  end.

(** [v.get(key)] *)
Definition dict_get {S : Type} (key : string) (v : json) : M S json :=
  match v with
  | JObj ms => ret (match assoc key ms with Some x => x | None => JNull end)
  | _ => raise AttributeError
  end.

(** [v[0]] for a truthy [v] *)
Definition first_item {S : Type} (v : json) : M S json :=
  match v with
  | JArr (x :: _) => ret x
  | JStr (String c _) => ret (JStr (String c EmptyString))
  | JObj _ => raise KeyError
  | _ => raise TypeError
  end.

(** The test [if data.get('syncedLyrics'): return data['syncedLyrics']]
    on the body of a response with status 200. *)
Definition synced_lyrics (resp : response) : M (list request) (option json) :=
  if (status_code resp =? 200)%Z then
    data <- resp_json resp ;;
    v <- dict_get "syncedLyrics" data ;;
    if json_truthy v then ret (Some v) else ret None
  else ret None.

Definition exact_params (artist song : string) : list (string * string) :=
  (if Str.truthy song then [("track_name", song)] else [])
  ++ (if Str.truthy artist then [("artist_name", artist)] else []).

(** "Try exact match first" *)
Definition exact_lookup (artist song : string)
  : M (list request) (option json) :=
  match exact_params artist song with
  | [] => ret None
  | params =>
      resp <- requests_get (ApiGet params) ;;
      synced_lyrics resp
  end.

Definition queries (artist song : string) : list (list (string * string)) :=
  (if Str.truthy artist && Str.truthy song
   then [ [("artist_name", artist); ("track_name", song)];
          [("q", (artist ++ " " ++ song)%string)] ]
   else [])
  ++ (if Str.truthy song then [ [("q", song)] ] else []).

(** The [try] block of one turn of the loop over [queries]. *)
Definition search_attempt (query : list (string * string))
  : M (list request) (option json) :=
  resp <- requests_get (ApiSearch query) ;;
  if (status_code resp =? 200)%Z then
    results <- resp_json resp ;;
    if json_truthy results then
      first <- first_item results ;;
      result_id <- dict_get "id" first ;;
      if json_truthy result_id then
        resp <- requests_get (ApiGetId result_id) ;;
        synced_lyrics resp
      else ret None
    else ret None
  else ret None.

(** One turn: a bare [except: continue] around the attempt. *)
Definition search_query (query : list (string * string))
  : M (list request) (option json) :=
  try_except (search_attempt query) (fun _ => ret None).

(** The loop: [return] at the first hit. *)
Fixpoint try_queries (qs : list (list (string * string)))
  : M (list request) (option json) :=
  match qs with
  | [] => ret None
  | q :: rest =>
      r <- search_query q ;;
      match r with
      | Some v => ret (Some v)
      | None => try_queries rest
      end
  end.

(** [search_lrclib]: the whole body is under [except Exception]. *)
Definition search_lrclib (artist song : string)
  : M (list request) (option json) :=
  try_except
    (r <- exact_lookup artist song ;;
     match r with
     | Some v => ret (Some v)
     | None => try_queries (queries artist song)
     end)
    (fun _ => ret None).

End Client.

(** ** The overlay object *)

Inductive color : Type := Yellow | Red | White | Orange.

(** The fields of [self] the core reads and writes, and the texts of the
    three labels. [title_label] is [None] for the initial caption and
    [Some s] once a song title [s] follows the note sign. *)
Record State : Type := {
  lyrics : list Lyric;
  running : bool;
  start_time : Q;
  is_loading : bool;
  last_title : option string;
  current_song : option string;
  current_label : string * color;
  next_label : string;
  title_label : option string
}.

Definition initial : State :=
  {| lyrics := []; running := true; start_time := 0; is_loading := false;
     last_title := None; current_song := None;
     current_label := (EmptyString, Yellow); next_label := EmptyString;
     title_label := None |}.

Definition set_lyrics (v : list Lyric) (st : State) : State :=
  {| lyrics := v; running := running st; start_time := start_time st;
     is_loading := is_loading st; last_title := last_title st;
     current_song := current_song st; current_label := current_label st;
     next_label := next_label st; title_label := title_label st |}.

Definition set_start_time (v : Q) (st : State) : State :=
  {| lyrics := lyrics st; running := running st; start_time := v;
     is_loading := is_loading st; last_title := last_title st;
     current_song := current_song st; current_label := current_label st;
     next_label := next_label st; title_label := title_label st |}.

Definition set_is_loading (v : bool) (st : State) : State :=
  {| lyrics := lyrics st; running := running st; start_time := start_time st;
     is_loading := v; last_title := last_title st;
     current_song := current_song st; current_label := current_label st;
     next_label := next_label st; title_label := title_label st |}.

Definition set_last_title (v : option string) (st : State) : State :=
  {| lyrics := lyrics st; running := running st; start_time := start_time st;
     is_loading := is_loading st; last_title := v;
     current_song := current_song st; current_label := current_label st;
     next_label := next_label st; title_label := title_label st |}.

Definition set_current_song (v : option string) (st : State) : State :=
  {| lyrics := lyrics st; running := running st; start_time := start_time st;
     is_loading := is_loading st; last_title := last_title st;
     current_song := v; current_label := current_label st;
     next_label := next_label st; title_label := title_label st |}.

Definition set_current_label (v : string * color) (st : State) : State :=
  {| lyrics := lyrics st; running := running st; start_time := start_time st;
     is_loading := is_loading st; last_title := last_title st;
     current_song := current_song st; current_label := v;
     next_label := next_label st; title_label := title_label st |}.

Definition set_next_label (v : string) (st : State) : State :=
  {| lyrics := lyrics st; running := running st; start_time := start_time st;
     is_loading := is_loading st; last_title := last_title st;
     current_song := current_song st; current_label := current_label st;
     next_label := v; title_label := title_label st |}.

Definition set_title_label (v : option string) (st : State) : State :=
  {| lyrics := lyrics st; running := running st; start_time := start_time st;
     is_loading := is_loading st; last_title := last_title st;
     current_song := current_song st; current_label := current_label st;
     next_label := next_label st; title_label := v |}.

(** What a call of [load_song] is given from outside: the window titles
    ([None] when [gw.getAllTitles()] raises), the HTTP layer and the
    successive readings of [time.time()]. *)
Record Env : Type := {
  windows : option (list string);
  net : Net;
  clock : nat -> Q
}.

(** The overlay together with the requests sent, each with the overlay
    as it was when the request left. *)
Record World : Type := { self : State; sent : list (request * State) }.

Definition on_self (f : State -> State) : M World unit :=
  modify (fun w => {| self := f (self w); sent := sent w |}).

Fixpoint first_youtube (titles : list string) : option string :=
  match titles with
  | [] => None
  | title :: rest =>
      if Str.contains "youtube" (Str.lower title)
         && Str.truthy (Str.strip title)
      then Some title
      else first_youtube rest
  end.

Definition find_youtube_window (ws : option (list string)) : option string :=
  match ws with
  | Some titles => first_youtube titles
  | None => None
  end.

(** A value found by [find_youtube_window] that passes [if not ...]. *)
Definition sampled (ws : option (list string)) : option string :=
  match find_youtube_window ws with
  | Some t => if Str.truthy t then Some t else None
  | None => None
  end.

Section Loading.

Local Open Scope monad_scope.

Variable env : Env.

(** [self.search_lrclib(artist, song)] run from the overlay. *)
Definition call_search (artist song : string) : M World (option json) :=
  fun w =>
    let (reqs, r) := search_lrclib (net env) artist song [] in
    ({| self := self w;
        sent := sent w ++ map (fun q => (q, self w)) reqs |}, r).

(** [self.parse_lrc(lrc)]: [lrc.split] exists on a [str] only. *)
Definition call_parse_lrc (lrc : json) : M World (list Lyric) :=
  match lrc with
  | JStr s => ret (parse_lrc s)
  | _ => raise AttributeError
  end.

(** The [try] block of [load_song]. *)
Definition load_song_try (load_start : Q) : M World bool :=
  match sampled (windows env) with
  | None =>
      on_self (set_current_label ("No YouTube window", Red)) ;;;
      ret false
  | Some yt_title =>
      let '(artist, song, full) := parse_song yt_title in
      on_self (set_current_label ("Loading...", White)) ;;;
      on_self (set_next_label full) ;;;
      lrc <- call_search artist song ;;
      match lrc with
      | Some v =>
          if json_truthy v then
            parsed <- call_parse_lrc v ;;
            on_self (set_lyrics parsed) ;;;
            let load_time := clock env 1 - load_start in
            on_self (set_start_time (Qred (clock env 2 - load_time))) ;;;
            on_self (set_current_song (Some full)) ;;;
            on_self (set_title_label (Some (Str.take 50 full))) ;;;
            ret true
          else
            on_self (set_current_label ("No lyrics found", Orange)) ;;;
            on_self (set_next_label EmptyString) ;;;
            ret false
      | None =>
          on_self (set_current_label ("No lyrics found", Orange)) ;;;
          on_self (set_next_label EmptyString) ;;;
          ret false
      end
  end.

Definition load_song : M World bool :=
  fun w =>
    if is_loading (self w) then (w, Ok false)
    else
      (on_self (set_is_loading true) ;;;
       let load_start := clock env 0 in
       try_finally (load_song_try load_start)
         (fun w' => {| self := set_is_loading false (self w');
                       sent := sent w' |})) w.

End Loading.

(** [check_title_change]: the overlay afterwards and the answer. *)
Definition check_title_change (ws : option (list string)) (st : State)
  : State * bool :=
  if is_loading st then (st, false)
  else
    match sampled ws with
    | None => (st, false)
    | Some current =>
        match last_title st with
        | None => (set_last_title (Some current) st, false)
        | Some last =>
            if negb (String.eqb current last) then
              let old_clean := clean_title last in
              let new_clean := clean_title current in
              if negb (String.eqb old_clean new_clean)
              then (set_last_title (Some current) st, true)
              else (set_last_title (Some current) st, false)
            else (st, false)
        end
    end.

(** ** The display part of [update_loop] *)

(** The scan [for i, lyric in enumerate(self.lyrics)]: [i] is the index
    of the head of [ls], [cur] the value of [current_idx] so far. *)
Fixpoint scan (ls : list Lyric) (elapsed : Q) (i cur : nat) : nat :=
  match ls with
  | [] => cur
  | lyric :: rest =>
      scan rest elapsed (S i)
        (if Qle_bool (time lyric) elapsed then i else cur)
  end.

(** The index of the line shown as current, if one is shown. *)
Definition currentIndex (ls : list Lyric) (elapsed : Q) : option nat :=
  match ls with
  | [] => None
  | _ =>
      let current_idx := scan ls elapsed 0 0 in
      if Nat.ltb current_idx (List.length ls) then Some current_idx else None
  end.

Definition line_text (ls : list Lyric) (i : nat) : string :=
  match nth_error ls i with
  | Some l => text l
  | None => EmptyString
  end.

(** The "Update display" step with [time.time()] reading [now]. *)
Definition update_display (now : Q) (st : State) : State :=
  match currentIndex (lyrics st) (now - start_time st) with
  | Some i =>
      set_next_label
        (if Nat.ltb (i + 1) (List.length (lyrics st))
         then line_text (lyrics st) (i + 1) else EmptyString)
        (set_current_label (line_text (lyrics st) i, Yellow) st)
  | None => st
  end.

(** * Definitions for the statements

    Predicates and functions in which the properties below are stated,
    and the specification-side readings the code is compared with. *)

(** ** Strings and stamped lines *)

Fixpoint all_of (p : ascii -> bool) (s : string) : bool :=
  match s with
  | EmptyString => true
  | String c s' => p c && all_of p s'
  end.

Definition no_newline (s : string) : bool :=
  all_of (fun c => negb (Ascii.eqb c newline)) s.

(** A word: a non-empty run without whitespace. *)
Definition word (w : string) : Prop :=
  w <> EmptyString /\ all_of (fun c => negb (Str.is_space c)) w = true.

(** A non-empty string of digits. *)
Definition digits (d : string) : Prop :=
  d <> EmptyString /\ all_of Str.is_digit d = true.


(** [[m:s.c]t] *)
Definition stamped (m s c t : string) : string :=
  ("[" ++ m ++ ":" ++ s ++ "." ++ c ++ "]" ++ t)%string.

(** The spans of the four groups in [stamped m s c t]. *)
Definition stamp_spans (m s c t : string) : nat * list (nat * nat) :=
  let p1 := (1 + String.length m)%nat in
  let p2 := (S p1 + String.length s)%nat in
  let p3 := (S p2 + String.length c)%nat in
  let p4 := (S p3 + String.length t)%nat in
  (p4, [(1%nat, p1); (S p1, p2); (S p2, p3); (S p3, p4)]).

(** What [parse_line] builds from the groups of a stamped line. *)
Definition entry (m s c t : string) : Lyric :=
  {| time := total_sec (Str.int_of m) (Str.int_of s) (Str.int_of c);
     text := Str.strip t |}.

(** ** The decoder, as the specification words it *)




Definition by_time (a b : Lyric) : Prop := time a <= time b.

(** The lines of one time, in the order in which they stand. *)
Definition at_time (q : Q) (l : list Lyric) : list Lyric :=
  filter (fun x => Qeq_bool (time x) q) l.

(** The last index of [ls] whose line is reached at [elapsed]. *)
Fixpoint last_reached (ls : list Lyric) (elapsed : Q) : option nat :=
  match ls with
  | [] => None
  | l :: rest =>
      match last_reached rest elapsed with
      | Some j => Some (S j)
      | None => if Qle_bool (time l) elapsed then Some 0%nat else None
      end
  end.

(** ** Removal patterns *)

(** One of the removal patterns of [clean_title] still finds something
    in [y]. *)
Definition still_matches (y : string) : bool :=
  re_search true youtube_suffix y
  || re_search false pipe_suffix y
  || existsb (fun p => re_search true p y) patterns.

(** The characters a pattern cannot do without. *)
Fixpoint needs (pat : pattern) : nat :=
  match pat with
  | [] => 0
  | One _ :: rest => S (needs rest)
  | Plus _ :: rest => S (needs rest)
  | _ :: rest => needs rest
  end.

(** ** Runs of [load_song] *)

(** The three fields a reload publishes together. *)
Definition shared (st : State) : list Lyric * Q * option string :=
  (lyrics st, start_time st, current_song st).

(** How the [try] block of [load_song] ends once the search has ended
    with [r]: the overlay it leaves and its outcome. *)
Inductive load_outcome (env : Env) (full : string) (mid : State)
  : result (option json) -> State -> result bool -> Prop :=
| out_search_raised e :
    load_outcome env full mid (Raise e) mid (Raise e)
| out_not_found r :
    match r with Some v => json_truthy v = false | None => True end ->
    load_outcome env full mid (Ok r)
      (set_next_label EmptyString
         (set_current_label ("No lyrics found", Orange) mid))
      (Ok false)
| out_not_text v :
    json_truthy v = true ->
    match v with JStr _ => False | _ => True end ->
    load_outcome env full mid (Ok (Some v)) mid (Raise AttributeError)
| out_loaded s :
    Str.truthy s = true ->
    load_outcome env full mid (Ok (Some (JStr s)))
      (set_title_label (Some (Str.take 50 full))
         (set_current_song (Some full)
            (set_start_time
               (Qred (clock env 2 - (clock env 1 - clock env 0)))
               (set_lyrics (parse_lrc s) mid))))
      (Ok true).

(** What a call of [load_song] that got past the guard did: the overlay
    [mid] seen by the HTTP layer, the requests sent, and the outcome. *)
Inductive load_run (env : Env) (w : World) : World -> result bool -> Prop :=
| run_no_window :
    sampled (windows env) = None ->
    load_run env w
      {| self := set_is_loading false
                  (set_current_label ("No YouTube window", Red)
                     (set_is_loading true (self w)));
         sent := sent w |}
      (Ok false)
| run_fetched yt artist song full reqs r mid fin out :
    sampled (windows env) = Some yt ->
    parse_song yt = (artist, song, full) ->
    mid = set_next_label full
            (set_current_label ("Loading...", White)
               (set_is_loading true (self w))) ->
    search_lrclib (net env) artist song [] = (reqs, r) ->
    load_outcome env full mid r fin out ->
    load_run env w
      {| self := set_is_loading false fin;
         sent := sent w ++ map (fun q => (q, mid)) reqs |}
      out.

(** ** The lookup cascade, as the specification words it

    An ordered list of strategies, each giving an optional result; the
    first success wins. *)

(** A response carries lyrics when it has status 200 and its body is an
    object with a truthy [syncedLyrics] member. *)
Definition carried_lyrics (r : result response) : option json :=
  match r with
  | Ok resp =>
      if (status_code resp =? 200)%Z then
        match body resp with
        | Some (JObj ms) =>
            match assoc "syncedLyrics" ms with
            | Some v => if json_truthy v then Some v else None
            | None => None
            end
        | _ => None
        end
      else None
  | Raise _ => None
  end.

(** The identifier of the first candidate of a search response: status
    200, a list whose first item is an object with a truthy [id]. *)
Definition first_candidate (r : result response) : option json :=
  match r with
  | Ok resp =>
      if (status_code resp =? 200)%Z then
        match body resp with
        | Some (JArr (JObj ms :: _)) =>
            match assoc "id" ms with
            | Some id => if json_truthy id then Some id else None
            | None => None
            end
        | _ => None
        end
      else None
  | Raise _ => None
  end.

Inductive strategy : Type :=
| ExactMatch (params : list (string * string))
| SearchCall (query : list (string * string)).

Definition nonempty (s : string) : bool :=
  match s with EmptyString => false | _ => true end.

Definition strategy_order (artist song : string) : list strategy :=
  (if nonempty song || nonempty artist
   then [ExactMatch
           ((if nonempty song then [("track_name", song)] else [])
            ++ (if nonempty artist then [("artist_name", artist)] else []))]
   else [])
  ++ (if nonempty artist && nonempty song
      then [SearchCall [("artist_name", artist); ("track_name", song)];
            SearchCall [("q", (artist ++ " " ++ song)%string)]]
      else [])
  ++ (if nonempty song then [SearchCall [("q", song)]] else []).

(** One strategy run as the [n]-th call of the HTTP layer: the requests
    it sends and what it finds. *)
Definition attempt (net : Net) (n : nat) (s : strategy)
  : list request * option json :=
  match s with
  | ExactMatch params =>
      ([ApiGet params], carried_lyrics (net n (ApiGet params)))
  | SearchCall query =>
      match first_candidate (net n (ApiSearch query)) with
      | Some id =>
          ([ApiSearch query; ApiGetId id],
           carried_lyrics (net (S n) (ApiGetId id)))
      | None => ([ApiSearch query], None)
      end
  end.

Fixpoint first_success (net : Net) (n : nat) (ss : list strategy)
  : list request * option json :=
  match ss with
  | [] => ([], None)
  | s :: rest =>
      match attempt net n s with
      | (reqs, Some v) => (reqs, Some v)
      | (reqs, None) =>
          let (more, r) := first_success net (n + List.length reqs) rest in
          (reqs ++ more, r)
      end
  end.

(** The exact lookup is skipped or answered: there is nothing to ask
    for, or the HTTP layer gives a response which, when its status is
    200, has a JSON object as its body. *)
Definition exact_answered (net : Net) (n : nat) (artist song : string)
  : Prop :=
  exact_params artist song = [] \/
  exists resp : response,
    net n (ApiGet (exact_params artist song)) = Ok resp /\
    (status_code resp <> 200%Z \/ exists ms, body resp = Some (JObj ms)).

(** The exact lookup raises: the HTTP layer raises, or the body of a
    response with status 200 is not a JSON object. *)
Definition exact_raises (net : Net) (n : nat) (artist song : string)
  : Prop :=
  exact_params artist song <> [] /\
  ((exists e, net n (ApiGet (exact_params artist song)) = Raise e) \/
   exists resp : response,
     net n (ApiGet (exact_params artist song)) = Ok resp /\
     status_code resp = 200%Z /\ forall ms, body resp <> Some (JObj ms)).

(** The value found by a strategy comes out of a response. *)
Definition from_response (net : Net) (v : json) : Prop :=
  exists (n : nat) (q : request) (resp : response)
         (ms : list (string * json)),
    net n q = Ok resp /\ status_code resp = 200%Z /\
    body resp = Some (JObj ms) /\ assoc "syncedLyrics" ms = Some v.

(** ** Sample environments *)

Definition ok (status : Z) (v : json) : result response :=
  Ok {| status_code := status; body := Some v |}.

(** The exact lookup is answered with a number under [syncedLyrics]. *)
Definition net_number : Net :=
  fun _ q =>
    match q with
    | ApiGet _ => ok 200 (JObj [("syncedLyrics", JNum 5)])
    | _ => Raise RequestException
    end.

(** The exact lookup is answered with a JSON list; a search would find
    the song. *)
Definition net_list : Net :=
  fun _ q =>
    match q with
    | ApiGet _ => ok 200 (JArr [])
    | ApiSearch _ => ok 200 (JArr [JObj [("id", JNum 7)]])
    | ApiGetId _ => ok 200 (JObj [("syncedLyrics", JStr "[00:01.00]la")])
    end.

(** Nothing exact; the first search finds the song. *)
Definition net_search : Net :=
  fun _ q =>
    match q with
    | ApiGet _ => ok 404 (JObj [("message", JStr "not found")])
    | ApiSearch _ => ok 200 (JArr [JObj [("id", JNum 7)]])
    | ApiGetId _ => ok 200 (JObj [("syncedLyrics", JStr "[00:01.00]la")])
    end.


Definition tab : option (list string) :=
  Some ["Inbox"; "Rick - Roll (Official Video) - YouTube"].

Definition fresh : World := {| self := initial; sent := [] |}.

(** * Properties *)

(** ** Strings *)

Lemma append_nil_r (s : string) : (s ++ "")%string = s.
Proof. induction s as [|c s IH]; cbn; [reflexivity | now rewrite IH]. Qed.

Lemma append_assoc (a b c : string) :
  ((a ++ b) ++ c)%string = (a ++ (b ++ c))%string.
Proof. induction a as [|x a IH]; cbn; [reflexivity | now rewrite IH]. Qed.

Lemma length_append (a b : string) :
  String.length (a ++ b) = (String.length a + String.length b)%nat.
Proof. induction a as [|x a IH]; cbn; [reflexivity | now rewrite IH]. Qed.

Lemma all_of_append (p : ascii -> bool) (a b : string) :
  all_of p (a ++ b) = all_of p a && all_of p b.
Proof.
  induction a as [|x a IH]; cbn; [reflexivity |].
  now rewrite IH, andb_assoc.
Qed.


Lemma substring_all (b c : string) :
  substring 0 (String.length b) (b ++ c) = b.
Proof.
  induction b as [|x b IH]; cbn.
  - destruct c; reflexivity.
  - now rewrite IH.
Qed.

Lemma substring_skip (a s : string) (k : nat) :
  substring (String.length a) k (a ++ s) = substring 0 k s.
Proof. induction a as [|x a IH]; cbn; [reflexivity | exact IH]. Qed.

(** The span [n, e) of [a ++ b ++ c] that covers [b]. *)
Lemma substring_span (a b c : string) (n e : nat) :
  n = String.length a -> e = (n + String.length b)%nat ->
  substring n (e - n) (a ++ b ++ c) = b.
Proof.
  intros -> ->.
  replace (String.length a + String.length b - String.length a)%nat
    with (String.length b) by lia.
  rewrite substring_skip. apply substring_all.
Qed.

(** *** [strip] *)

Lemma rstrip_idem (s : string) : Str.rstrip (Str.rstrip s) = Str.rstrip s.
Proof.
  induction s as [|c s IH]; cbn; [reflexivity |].
  destruct (Str.is_space c && Str.is_empty (Str.rstrip s)) eqn:E;
    [reflexivity |].
  cbn. now rewrite IH, E.
Qed.

Lemma lstrip_rstrip (s : string) :
  Str.lstrip (Str.rstrip s) = Str.rstrip (Str.lstrip s).
Proof.
  induction s as [|c s IH]; cbn; [reflexivity |].
  destruct (Str.is_space c) eqn:Hc; cbn.
  - destruct (Str.is_empty (Str.rstrip s)) eqn:He; cbn.
    + rewrite <- IH. destruct (Str.rstrip s); [reflexivity | discriminate].
    + now rewrite Hc.
  - now rewrite Hc.
Qed.

Lemma strip_rstrip (s : string) : Str.strip (Str.rstrip s) = Str.strip s.
Proof.
  unfold Str.strip. now rewrite lstrip_rstrip, rstrip_idem.
Qed.

Lemma lstrip_idem (s : string) : Str.lstrip (Str.lstrip s) = Str.lstrip s.
Proof.
  induction s as [|c s IH]; cbn; [reflexivity |].
  destruct (Str.is_space c) eqn:Hc; [exact IH |].
  cbn. now rewrite Hc.
Qed.

Lemma strip_idem (s : string) : Str.strip (Str.strip s) = Str.strip s.
Proof.
  unfold Str.strip at 2. rewrite strip_rstrip.
  unfold Str.strip. now rewrite lstrip_idem.
Qed.


Lemma rstrip_no_newline (s : string) :
  no_newline s = true -> no_newline (Str.rstrip s) = true.
Proof.
  unfold no_newline. induction s as [|c s IH]; cbn; [reflexivity |].
  rewrite andb_true_iff. intros [Hc Hs].
  destruct (Str.is_space c && Str.is_empty (Str.rstrip s));
    [reflexivity |].
  change (negb (Ascii.eqb c newline)
          && all_of (fun c => negb (Ascii.eqb c newline)) (Str.rstrip s)
          = true).
  apply andb_true_iff. split; [exact Hc | now apply IH].
Qed.

Lemma lstrip_no_newline (s : string) :
  no_newline s = true -> no_newline (Str.lstrip s) = true.
Proof.
  unfold no_newline. induction s as [|c s IH]; cbn; [reflexivity |].
  rewrite andb_true_iff. intros [Hc Hs].
  destruct (Str.is_space c); [now apply IH |].
  change (negb (Ascii.eqb c newline)
          && all_of (fun c => negb (Ascii.eqb c newline)) s = true).
  apply andb_true_iff. now split.
Qed.

Lemma strip_no_newline (s : string) :
  no_newline s = true -> no_newline (Str.strip s) = true.
Proof.
  intros H. unfold Str.strip.
  now apply rstrip_no_newline, lstrip_no_newline.
Qed.


(** *** [split('\n')] *)

Lemma split_on_no_sep (s : string) :
  Forall (fun w => no_newline w = true) (Str.split_on newline s).
Proof.
  induction s as [|c s IH]; cbn.
  - repeat constructor.
  - destruct (Ascii.eqb c newline) eqn:Hc.
    + now constructor.
    + assert (Hn : forall w, no_newline w = true ->
                     no_newline (String c w) = true).
      { intros w Hw. unfold no_newline in *. cbn. now rewrite Hc. }
      destruct (Str.split_on newline s) as [|w ws].
      * constructor; [now apply Hn | constructor].
      * inversion IH; subst. constructor; [now apply Hn | assumption].
Qed.



(** ** The matcher *)

Section MatcherFacts.

Variable icase : bool.

(** [s] does not go on with a character of class [p]. *)
Definition stops (p : cls) (s : string) : Prop :=
  match s with
  | EmptyString => True
  | String c _ => cls_match icase p c = false
  end.

Lemma star_stop {A : Type} (p : cls) (k : string -> nat -> option A)
  (s : string) (pos : nat) :
  stops p s -> star icase p k s pos = k s pos.
Proof.
  destruct s as [|c s]; cbn; [reflexivity |]. now intros ->.
Qed.

Lemma star_app {A : Type} (p : cls) (k : string -> nat -> option A)
  (d rest : string) (pos : nat) (r : A) :
  all_of (cls_match icase p) d = true ->
  star icase p k rest (pos + String.length d) = Some r ->
  star icase p k (d ++ rest) pos = Some r.
Proof.
  revert pos. induction d as [|c d IH]; intros pos; cbn.
  - intros _. now rewrite Nat.add_0_r.
  - rewrite andb_true_iff. intros [Hc Hd] Hr. rewrite Hc.
    rewrite (IH (S pos) Hd); [reflexivity |].
    now replace (S pos + String.length d)%nat
      with (pos + S (String.length d))%nat by lia.
Qed.

Lemma star_inv {A : Type} (p : cls) (k : string -> nat -> option A)
  (s : string) (pos : nat) (r : A) :
  star icase p k s pos = Some r ->
  exists d rest : string,
    s = (d ++ rest)%string /\ all_of (cls_match icase p) d = true /\
    k rest (pos + String.length d)%nat = Some r.
Proof.
  revert pos. induction s as [|c s IH]; intros pos; cbn.
  - intros H. exists EmptyString, EmptyString. cbn.
    now rewrite Nat.add_0_r.
  - assert (Hnil : k (String c s) pos = Some r ->
                   exists d rest : string,
                     String c s = (d ++ rest)%string /\
                     all_of (cls_match icase p) d = true /\
                     k rest (pos + String.length d)%nat = Some r).
    { intros H. exists EmptyString, (String c s). cbn.
      now rewrite Nat.add_0_r. }
    destruct (cls_match icase p c) eqn:Hc; [| exact Hnil].
    destruct (star icase p k s (S pos)) as [r'|] eqn:Hs; [| exact Hnil].
    intros H; inversion H; subst r'.
    destruct (IH (S pos) Hs) as [d [rest [E [Hd Hk]]]].
    exists (String c d), rest. cbn. rewrite Hc, Hd, E.
    repeat split.
    now replace (pos + S (String.length d))%nat
      with (S pos + String.length d)%nat by lia.
Qed.

Lemma match_open (rest : pattern) (s : string) (pos start : nat)
  (groups : list (nat * nat)) :
  match_here icase (Open :: rest) s pos start groups =
    match_here icase rest s pos pos groups.
Proof. reflexivity. Qed.

Lemma match_close (rest : pattern) (s : string) (pos start : nat)
  (groups : list (nat * nat)) :
  match_here icase (Close :: rest) s pos start groups =
    match_here icase rest s pos start (groups ++ [(start, pos)]).
Proof. reflexivity. Qed.

Lemma match_one_run (p : cls) (rest : pattern) (c : ascii) (s : string)
  (pos start : nat) (groups : list (nat * nat)) :
  cls_match icase p c = true ->
  match_here icase (One p :: rest) (String c s) pos start groups =
    match_here icase rest s (S pos) start groups.
Proof. intros H. cbn. now rewrite H. Qed.

Lemma match_one_inv (p : cls) (rest : pattern) (x : string)
  (pos start : nat) (groups : list (nat * nat)) (r : nat * list (nat * nat)) :
  match_here icase (One p :: rest) x pos start groups = Some r ->
  exists (c : ascii) (s : string),
    x = String c s /\ cls_match icase p c = true /\
    match_here icase rest s (S pos) start groups = Some r.
Proof.
  destruct x as [|c s]; cbn; [discriminate |].
  destruct (cls_match icase p c) eqn:Hc; [| discriminate].
  intros H. now exists c, s.
Qed.

Lemma match_star_run (p : cls) (rest : pattern) (d s : string)
  (pos start : nat) (groups : list (nat * nat)) (r : nat * list (nat * nat)) :
  all_of (cls_match icase p) d = true -> stops p s ->
  match_here icase rest s (pos + String.length d) start groups = Some r ->
  match_here icase (Star p :: rest) (d ++ s) pos start groups = Some r.
Proof.
  intros Hd Hs Hr. cbn [match_here].
  apply star_app; [exact Hd |]. now rewrite star_stop.
Qed.

Lemma match_plus_run (p : cls) (rest : pattern) (d s : string)
  (pos start : nat) (groups : list (nat * nat)) (r : nat * list (nat * nat)) :
  d <> EmptyString ->
  all_of (cls_match icase p) d = true -> stops p s ->
  match_here icase rest s (pos + String.length d) start groups = Some r ->
  match_here icase (Plus p :: rest) (d ++ s) pos start groups = Some r.
Proof.
  destruct d as [|c d]; [now intros H |]. intros _. cbn.
  rewrite andb_true_iff. intros [Hc Hd] Hs Hr. rewrite Hc.
  apply star_app; [exact Hd |]. rewrite star_stop; [| exact Hs].
  now replace (S pos + String.length d)%nat
    with (pos + S (String.length d))%nat by lia.
Qed.

Lemma match_star_inv (p : cls) (rest : pattern) (x : string)
  (pos start : nat) (groups : list (nat * nat)) (r : nat * list (nat * nat)) :
  match_here icase (Star p :: rest) x pos start groups = Some r ->
  exists d s : string,
    x = (d ++ s)%string /\ all_of (cls_match icase p) d = true /\
    match_here icase rest s (pos + String.length d) start groups = Some r.
Proof. cbn [match_here]. apply star_inv. Qed.

Lemma match_plus_inv (p : cls) (rest : pattern) (x : string)
  (pos start : nat) (groups : list (nat * nat)) (r : nat * list (nat * nat)) :
  match_here icase (Plus p :: rest) x pos start groups = Some r ->
  exists d s : string,
    x = (d ++ s)%string /\ d <> EmptyString /\
    all_of (cls_match icase p) d = true /\
    match_here icase rest s (pos + String.length d) start groups = Some r.
Proof.
  destruct x as [|c x]; cbn; [discriminate |].
  destruct (cls_match icase p c) eqn:Hc; [| discriminate].
  intros H. apply star_inv in H. destruct H as [d [s [E [Hd Hr]]]].
  exists (String c d), s. cbn. rewrite E, Hc, Hd.
  repeat split; [discriminate |].
  now replace (pos + S (String.length d))%nat
    with (S pos + String.length d)%nat by lia.
Qed.

(** A pattern that finds nothing in [s] leaves it as it is. *)
Lemma sub_no_match (pat : pattern) (s : string) :
  re_search icase pat s = false -> re_sub icase pat s = s.
Proof.
  unfold re_sub. induction s as [|c s IH]; cbn; [reflexivity |].
  destruct (match_len icase pat (String c s)); [discriminate |].
  intros H. now rewrite IH.
Qed.

End MatcherFacts.

(** ** The LRC decoder *)

Lemma star_dot_all (t : string) (pos start : nat)
  (groups : list (nat * nat)) :
  no_newline t = true ->
  match_here false [Star Dot; Close] t pos start groups =
    Some ((pos + String.length t)%nat,
          groups ++ [(start, (pos + String.length t)%nat)]).
Proof.
  intros Ht. rewrite <- (append_nil_r t) at 1.
  apply match_star_run; [exact Ht | exact I | reflexivity].
Qed.

Lemma timestamp_spans (m s c t : string) :
  digits m -> digits s -> digits c -> no_newline t = true ->
  match_here false timestamp_line (stamped m s c t) 0 0 [] =
    Some (stamp_spans m s c t).
Proof.
  intros [Hm0 Hm] [Hs0 Hs] [Hc0 Hc] Ht.
  unfold timestamp_line, stamped, stamp_spans.
  change ("[" ++ m ++ ":" ++ s ++ "." ++ c ++ "]" ++ t)%string
    with (String "[" (m ++ String ":" (s ++ String "." (c ++ String "]" t)))).
  rewrite match_one_run, match_open by reflexivity.
  apply match_plus_run; [exact Hm0 | exact Hm | reflexivity |].
  rewrite match_close, match_one_run, match_open by reflexivity.
  apply match_plus_run; [exact Hs0 | exact Hs | reflexivity |].
  rewrite match_close, match_one_run, match_open by reflexivity.
  apply match_plus_run; [exact Hc0 | exact Hc | reflexivity |].
  rewrite match_close, match_one_run, match_open by reflexivity.
  rewrite star_dot_all by exact Ht. reflexivity.
Qed.

Lemma stamp_groups (m s c t : string) :
  map (fun g => substring (fst g) (snd g - fst g) (stamped m s c t))
    (snd (stamp_spans m s c t)) = [m; s; c; t].
Proof.
  unfold stamp_spans. cbv zeta. cbn [snd map fst].
  f_equal; [| f_equal; [| f_equal; [| f_equal]]].
  - apply (substring_span "[" m); [reflexivity | reflexivity].
  - replace (stamped m s c t)
      with (("[" ++ m ++ ":") ++ s ++ "." ++ c ++ "]" ++ t)%string
      by (unfold stamped; now rewrite !append_assoc).
    apply substring_span; [| reflexivity].
    cbn. rewrite length_append. cbn. lia.
  - replace (stamped m s c t)
      with (("[" ++ m ++ ":" ++ s ++ ".") ++ c ++ "]" ++ t)%string
      by (unfold stamped; now rewrite !append_assoc).
    apply substring_span; [| reflexivity].
    cbn. rewrite !length_append. cbn. rewrite !length_append. cbn. lia.
  - replace (stamped m s c t)
      with (("[" ++ m ++ ":" ++ s ++ "." ++ c ++ "]") ++ t ++ "")%string
      by (unfold stamped; now rewrite !append_assoc, append_nil_r).
    apply substring_span; [| reflexivity].
    cbn. rewrite !length_append. cbn. rewrite !length_append. cbn.
    rewrite !length_append. cbn. lia.
Qed.

Lemma timestamp_match (m s c t : string) :
  digits m -> digits s -> digits c -> no_newline t = true ->
  re_match false timestamp_line (stamped m s c t) = Some [m; s; c; t].
Proof.
  intros Hm Hs Hc Ht. unfold re_match.
  rewrite (timestamp_spans m s c t Hm Hs Hc Ht).
  pose proof (stamp_groups m s c t) as Hg.
  destruct (stamp_spans m s c t) as [e gs]. cbn [snd] in Hg.
  now rewrite Hg.
Qed.

Lemma chr_match_eq (a c : ascii) :
  cls_match false (Chr a) c = true -> c = a.
Proof.
  cbn. intros H. apply Ascii.eqb_eq in H. now symmetry.
Qed.

Lemma timestamp_inv (x : string) (r : nat * list (nat * nat)) :
  match_here false timestamp_line x 0 0 [] = Some r ->
  exists m s c t : string,
    digits m /\ digits s /\ digits c /\ x = stamped m s c t.
Proof.
  unfold timestamp_line. intros H.
  apply match_one_inv in H. destruct H as [c0 [x1 [-> [H0 H]]]].
  apply chr_match_eq in H0. subst c0.
  rewrite match_open in H.
  apply match_plus_inv in H. destruct H as [m [y1 [-> [Hm0 [Hm H]]]]].
  rewrite match_close in H.
  apply match_one_inv in H. destruct H as [c1 [x2 [-> [H1 H]]]].
  apply chr_match_eq in H1. subst c1.
  rewrite match_open in H.
  apply match_plus_inv in H. destruct H as [s [y2 [-> [Hs0 [Hs H]]]]].
  rewrite match_close in H.
  apply match_one_inv in H. destruct H as [c2 [x3 [-> [H2 H]]]].
  apply chr_match_eq in H2. subst c2.
  rewrite match_open in H.
  apply match_plus_inv in H. destruct H as [c [y3 [-> [Hc0 [Hc H]]]]].
  rewrite match_close in H.
  apply match_one_inv in H. destruct H as [c3 [t [-> [H3 H]]]].
  apply chr_match_eq in H3. subst c3.
  exists m, s, c, t. repeat split; assumption || reflexivity.
Qed.

Lemma no_newline_stamped (m s c t : string) :
  no_newline (stamped m s c t) = true -> no_newline t = true.
Proof.
  unfold stamped, no_newline.
  change ("[" ++ m ++ ":" ++ s ++ "." ++ c ++ "]" ++ t)%string
    with (String "[" (m ++ String ":" (s ++ String "." (c ++ String "]" t)))).
  cbn [all_of]. rewrite !andb_true_iff.
  intros [_ H]. rewrite all_of_append in H.
  apply andb_true_iff in H. destruct H as [_ H]. cbn [all_of] in H.
  apply andb_true_iff in H. destruct H as [_ H].
  rewrite all_of_append in H.
  apply andb_true_iff in H. destruct H as [_ H]. cbn [all_of] in H.
  apply andb_true_iff in H. destruct H as [_ H].
  rewrite all_of_append in H.
  apply andb_true_iff in H. destruct H as [_ H]. cbn [all_of] in H.
  apply andb_true_iff in H. now destruct H as [_ H].
Qed.

(** [parse_line] on a line without a newline: it yields an entry exactly
    for a stamped line whose text is not blank. *)
Lemma parse_line_stamped (line m s c t : string) :
  no_newline line = true ->
  digits m -> digits s -> digits c ->
  Str.strip line = stamped m s c t ->
  parse_line line =
    if Str.truthy (Str.strip t) then Some (entry m s c t) else None.
Proof.
  intros Hl Hm Hs Hc E. unfold parse_line. rewrite E.
  rewrite timestamp_match; try assumption.
  - reflexivity.
  - apply (no_newline_stamped m s c). rewrite <- E.
    now apply strip_no_newline.
Qed.

Lemma parse_line_inv (line : string) (l : Lyric) :
  parse_line line = Some l ->
  exists m s c t : string,
    digits m /\ digits s /\ digits c /\
    Str.strip line = stamped m s c t.
Proof.
  unfold parse_line, re_match.
  destruct (match_here false timestamp_line (Str.strip line) 0 0 [])
    as [r|] eqn:H; [| discriminate].
  intros _. now apply timestamp_inv in H.
Qed.

(** *** [sorted] *)

Lemma Qlt_bool_iff (a b : Q) : Qlt_bool a b = true <-> a < b.
Proof.
  unfold Qlt_bool. rewrite negb_true_iff. split.
  - intros H. apply Qnot_le_lt. intros Hle.
    apply Qle_bool_iff in Hle. congruence.
  - intros H. destruct (Qle_bool b a) eqn:E; [| reflexivity].
    apply Qle_bool_iff in E. lra.
Qed.

Lemma Qlt_bool_false (a b : Q) : Qlt_bool a b = false -> b <= a.
Proof.
  unfold Qlt_bool. rewrite negb_false_iff. apply Qle_bool_iff.
Qed.

Lemma insert_perm (x : Lyric) (l : list Lyric) :
  Permutation (insert x l) (x :: l).
Proof.
  induction l as [|y l IH]; cbn; [reflexivity |].
  destruct (Qlt_bool (time y) (time x)); [| reflexivity].
  rewrite IH. apply perm_swap.
Qed.

Lemma sorted_perm (l : list Lyric) : Permutation (sorted l) l.
Proof.
  induction l as [|x l IH]; cbn; [reflexivity |].
  rewrite insert_perm. now constructor.
Qed.

Lemma insert_sorted (x : Lyric) (l : list Lyric) :
  StronglySorted by_time l -> StronglySorted by_time (insert x l).
Proof.
  induction 1 as [|y l Hs IH Hall]; cbn.
  - repeat constructor.
  - destruct (Qlt_bool (time y) (time x)) eqn:E.
    + apply Qlt_bool_iff in E. constructor; [exact IH |].
      rewrite (insert_perm x l). constructor; [| exact Hall].
      unfold by_time. lra.
    + apply Qlt_bool_false in E.
      constructor; [now constructor |].
      constructor; [exact E |].
      eapply Forall_impl; [| exact Hall].
      intros z Hz. unfold by_time in *. lra.
Qed.

Lemma sorted_sorted (l : list Lyric) : StronglySorted by_time (sorted l).
Proof.
  induction l as [|x l IH]; cbn; [constructor | now apply insert_sorted].
Qed.

Lemma insert_stable (q : Q) (x : Lyric) (l : list Lyric) :
  at_time q (insert x l) = at_time q (x :: l).
Proof.
  unfold at_time. induction l as [|y l IH]; [reflexivity |].
  cbn [insert]. destruct (Qlt_bool (time y) (time x)) eqn:E;
    [| reflexivity].
  apply Qlt_bool_iff in E. cbn [filter] in *. rewrite IH.
  destruct (Qeq_bool (time y) q) eqn:Hy; [| reflexivity].
  destruct (Qeq_bool (time x) q) eqn:Hx; [| reflexivity].
  apply Qeq_bool_iff in Hy, Hx. lra.
Qed.

Lemma sorted_stable (q : Q) (l : list Lyric) :
  at_time q (sorted l) = at_time q l.
Proof.
  induction l as [|x l IH]; [reflexivity |].
  cbn [sorted fold_right]. rewrite insert_stable.
  unfold at_time in *. cbn [filter]. fold (sorted l). now rewrite IH.
Qed.



Lemma truthy_iff (s : string) : Str.truthy s = true <-> s <> EmptyString.
Proof. destruct s; cbn; split; congruence. Qed.













(** ** Title cleaning *)

Lemma split_ws_words (s : string) : Forall word (Str.split_ws s).
Proof.
  induction s as [|c s IH]; cbn; [constructor |].
  destruct (Str.is_space c) eqn:Hc; [exact IH |].
  assert (H1 : word (String c EmptyString)).
  { split; [discriminate |]. cbn. now rewrite Hc. }
  destruct (Str.starts_word s).
  - destruct (Str.split_ws s) as [|w ws];
      [constructor; [exact H1 | constructor] |].
    inversion IH as [|? ? [_ Hw] Hws]; subst.
    constructor; [| exact Hws].
    split; [discriminate |]. cbn. now rewrite Hc, Hw.
  - now constructor.
Qed.

Lemma split_ws_word_then (w rest : string) :
  word w ->
  Str.split_ws (w ++ String " " rest) = w :: Str.split_ws rest.
Proof.
  intros [Hne Hw]. induction w as [|c w IH]; [now elim Hne |].
  cbn in Hw. apply andb_true_iff in Hw. destruct Hw as [Hc Hw].
  apply negb_true_iff in Hc. cbn [append Str.split_ws]. rewrite Hc.
  destruct w as [|c' w].
  - reflexivity.
  - assert (Hs : Str.starts_word (String c' w ++ String " " rest) = true).
    { cbn in Hw. apply andb_true_iff in Hw. now destruct Hw. }
    rewrite Hs, IH; [reflexivity | discriminate | exact Hw].
Qed.

Lemma split_ws_word (w : string) : word w -> Str.split_ws w = [w].
Proof.
  intros [Hne Hw]. induction w as [|c w IH]; [now elim Hne |].
  cbn in Hw. apply andb_true_iff in Hw. destruct Hw as [Hc Hw].
  apply negb_true_iff in Hc. cbn [Str.split_ws]. rewrite Hc.
  destruct w as [|c' w].
  - reflexivity.
  - assert (Hs : Str.starts_word (String c' w) = true).
    { cbn in Hw. apply andb_true_iff in Hw. now destruct Hw. }
    rewrite Hs, IH; [reflexivity | discriminate | exact Hw].
Qed.

Lemma split_ws_join (ws : list string) :
  Forall word ws -> Str.split_ws (Str.join " " ws) = ws.
Proof.
  induction 1 as [|w ws Hw Hws IH]; [reflexivity |].
  destruct ws as [|w' ws].
  - now apply split_ws_word.
  - change (Str.join " " (w :: w' :: ws))
      with (w ++ String " " (Str.join " " (w' :: ws)))%string.
    rewrite split_ws_word_then by exact Hw. now rewrite IH.
Qed.

Lemma normalize_ws_idem (s : string) :
  Str.normalize_ws (Str.normalize_ws s) = Str.normalize_ws s.
Proof.
  unfold Str.normalize_ws. now rewrite split_ws_join by apply split_ws_words.
Qed.

Lemma fold_sub_no_match (ps : list pattern) (y : string) :
  existsb (fun p => re_search true p y) ps = false ->
  fold_left (fun t p => re_sub true p t) ps y = y.
Proof.
  induction ps as [|p ps IH]; cbn; [reflexivity |].
  rewrite orb_false_iff. intros [Hp Hps].
  rewrite (sub_no_match true p y Hp). now apply IH.
Qed.

Lemma clean_title_no_match (y : string) :
  still_matches y = false -> clean_title y = Str.normalize_ws y.
Proof.
  unfold still_matches, clean_title. rewrite !orb_false_iff.
  intros [[H1 H2] H3].
  now rewrite (sub_no_match _ _ _ H1), (sub_no_match _ _ _ H2),
    (fold_sub_no_match _ _ H3).
Qed.

Lemma clean_title_normalized (x : string) :
  Str.normalize_ws (clean_title x) = clean_title x.
Proof.
  unfold clean_title. apply normalize_ws_idem.
Qed.

(** *** Every match of a removal pattern takes something away *)

Lemma match_here_bounds (icase : bool) (pat : pattern) (s : string)
  (pos start : nat) (groups : list (nat * nat)) (r : nat * list (nat * nat)) :
  match_here icase pat s pos start groups = Some r ->
  (pos + needs pat <= fst r <= pos + String.length s)%nat.
Proof.
  revert s pos start groups.
  induction pat as [|a pat IH]; intros s pos start groups H.
  - cbn in H. inversion H; subst. cbn. lia.
  - destruct a as [p | p | p | | |].
    + apply match_one_inv in H. destruct H as [c [s' [-> [_ H]]]].
      apply IH in H. cbn [needs String.length]. lia.
    + apply match_star_inv in H. destruct H as [d [s' [-> [_ H]]]].
      apply IH in H. rewrite length_append. cbn [needs]. lia.
    + apply match_plus_inv in H. destruct H as [d [s' [-> [Hd [_ H]]]]].
      apply IH in H. rewrite length_append. cbn [needs].
      destruct d; [now elim Hd | cbn [String.length] in *; lia].
    + cbn [match_here] in H. destruct (at_end s); [| discriminate].
      apply IH in H. cbn [needs]. lia.
    + rewrite match_open in H. apply IH in H. cbn [needs]. lia.
    + rewrite match_close in H. apply IH in H. cbn [needs]. lia.
Qed.

Lemma match_len_needs (icase : bool) (pat : pattern) (s : string) (n : nat) :
  match_len icase pat s = Some n ->
  (needs pat <= n <= String.length s)%nat.
Proof.
  unfold match_len.
  destruct (match_here icase pat s 0 0 []) as [[e gs]|] eqn:H;
    [| discriminate].
  intros E; inversion E; subst. apply match_here_bounds in H. cbn in H. lia.
Qed.

Lemma sub_from_length (icase : bool) (pat : pattern) (s : string)
  (skip : nat) :
  (String.length (sub_from icase pat s skip) <= String.length s)%nat.
Proof.
  revert skip. induction s as [|c s IH]; intros skip; cbn; [lia |].
  destruct skip as [|k].
  - destruct (match_len icase pat (String c s)) as [[|n]|]; cbn.
    + specialize (IH 0%nat). lia.
    + specialize (IH n). lia.
    + specialize (IH 0%nat). lia.
  - specialize (IH k). lia.
Qed.

Lemma sub_length (icase : bool) (pat : pattern) (s : string) :
  (String.length (re_sub icase pat s) <= String.length s)%nat.
Proof. apply sub_from_length. Qed.

Lemma sub_shortens (icase : bool) (pat : pattern) (s : string) :
  (1 <= needs pat)%nat ->
  re_search icase pat s = true ->
  (String.length (re_sub icase pat s) < String.length s)%nat.
Proof.
  intros Hn. unfold re_sub. induction s as [|c s IH]; cbn.
  - destruct (match_len icase pat EmptyString) as [n|] eqn:E;
      [| discriminate].
    apply match_len_needs in E. cbn in E. lia.
  - destruct (match_len icase pat (String c s)) as [[|n]|] eqn:E.
    + apply match_len_needs in E. lia.
    + intros _. pose proof (sub_from_length icase pat s n). lia.
    + intros H. specialize (IH H). cbn. lia.
Qed.

Lemma join_cons_length (c : ascii) (w : string) (ws : list string) :
  String.length (Str.join " " (String c w :: ws)) =
    S (String.length (Str.join " " (w :: ws))).
Proof. destruct ws; reflexivity. Qed.

Lemma normalize_ws_length_lead (s : string) :
  (String.length (Str.normalize_ws s)
   + match s with
     | String c _ => if Str.is_space c then 1 else 0
     | EmptyString => 0
     end <= String.length s)%nat.
Proof.
  unfold Str.normalize_ws. induction s as [|c s IH]; [cbn; lia |].
  cbn [Str.split_ws String.length].
  destruct (Str.is_space c); [destruct s; lia |].
  destruct s as [|c' s]; [cbn; lia |].
  cbn [Str.starts_word]. cbn [String.length] in *.
  destruct (Str.is_space c') eqn:Hs; cbn [negb].
  - destruct (Str.split_ws (String c' s)) as [|w ws]; [cbn; lia |].
    change (Str.join " " (String c "" :: w :: ws))
      with (String c (String " " (Str.join " " (w :: ws)))).
    cbn [String.length]. lia.
  - destruct (Str.split_ws (String c' s)) as [|w ws]; [cbn; lia |].
    rewrite join_cons_length. lia.
Qed.

Lemma normalize_ws_length (s : string) :
  (String.length (Str.normalize_ws s) <= String.length s)%nat.
Proof. pose proof (normalize_ws_length_lead s). lia. Qed.

Lemma fold_sub_length (ps : list pattern) (y : string) :
  (String.length (fold_left (fun t p => re_sub true p t) ps y)
   <= String.length y)%nat.
Proof.
  revert y. induction ps as [|p ps IH]; intros y; cbn; [lia |].
  specialize (IH (re_sub true p y)).
  pose proof (sub_length true p y). lia.
Qed.

Lemma fold_sub_shortens (ps : list pattern) (y : string) :
  forallb (fun p => Nat.leb 1 (needs p)) ps = true ->
  existsb (fun p => re_search true p y) ps = true ->
  (String.length (fold_left (fun t p => re_sub true p t) ps y)
   < String.length y)%nat.
Proof.
  revert y. induction ps as [|p ps IH]; intros y;
    cbn [forallb existsb fold_left]; [discriminate |].
  rewrite andb_true_iff, Nat.leb_le. intros [Hp Hps].
  destruct (re_search true p y) eqn:E; cbn [orb].
  - intros _. pose proof (sub_shortens true p y Hp E).
    pose proof (fold_sub_length ps (re_sub true p y)). lia.
  - intros H. rewrite (sub_no_match true p y E). now apply IH.
Qed.

Lemma clean_title_shortens (y : string) :
  still_matches y = true ->
  (String.length (clean_title y) < String.length y)%nat.
Proof.
  unfold still_matches, clean_title. intros H.
  set (y1 := re_sub true youtube_suffix y).
  set (y2 := re_sub false pipe_suffix y1).
  set (y3 := fold_left (fun t p => re_sub true p t) patterns y2).
  pose proof (normalize_ws_length y3) as H4.
  pose proof (fold_sub_length patterns y2) as H3. fold y3 in H3.
  pose proof (sub_length false pipe_suffix y1) as H2. fold y2 in H2.
  pose proof (sub_length true youtube_suffix y) as H1. fold y1 in H1.
  destruct (re_search true youtube_suffix y) eqn:E1.
  { pose proof (sub_shortens true youtube_suffix y
                  ltac:(cbn; lia) E1) as S1. fold y1 in S1. lia. }
  assert (Ey1 : y1 = y) by (apply sub_no_match; exact E1).
  destruct (re_search false pipe_suffix y) eqn:E2.
  { rewrite <- Ey1 in E2.
    pose proof (sub_shortens false pipe_suffix y1
                  ltac:(cbn; lia) E2) as S2. fold y2 in S2. lia. }
  assert (Ey2 : y2 = y).
  { unfold y2. rewrite Ey1. apply sub_no_match. exact E2. }
  cbn [orb] in H. rewrite <- Ey2 in H.
  pose proof (fold_sub_shortens patterns y2 eq_refl H) as S3. fold y3 in S3.
  lia.
Qed.

(** C5, as the code has it. A second pass of [clean_title] changes
    nothing exactly when none of the removal patterns finds anything in
    the cleaned title; and the platform suffix goes whatever its case,
    together with what follows it. *)
Theorem clean_title_second_pass :
  (forall x : string,
      clean_title (clean_title x) = clean_title x <->
      still_matches (clean_title x) = false) /\
  clean_title "Song - Artist - YouTube" = "Song - Artist" /\
  clean_title "Song - Artist - youtube" = "Song - Artist" /\
  clean_title "Song - Artist  -  YOUTUBE - Mozilla Firefox" = "Song - Artist".
Proof.
  split; [| repeat split; reflexivity].
  intros x. split.
  - intros E. destruct (still_matches (clean_title x)) eqn:H;
      [| reflexivity].
    apply clean_title_shortens in H. rewrite E in H. lia.
  - intros H. rewrite (clean_title_no_match _ H).
    apply clean_title_normalized.
Qed.

Lemma clean_title_second_pass_witness :
  still_matches (clean_title "Song Title (Official Video) - YouTube") = false
  /\ clean_title (clean_title "Song Title (Official Video) - YouTube")
     = clean_title "Song Title (Official Video) - YouTube".
Proof.
  assert (H : still_matches
                (clean_title "Song Title (Official Video) - YouTube") = false)
    by reflexivity.
  split; [exact H |].
  exact (proj2 (proj1 clean_title_second_pass _) H).
Defined.

(** C5 does not hold as the specification states it: removing a later annotation can
    uncover an earlier one, which only a second pass removes. *)
Lemma clean_title_not_idempotent :
  clean_title "(offi[HQ]cial)" = "(official)" /\
  clean_title (clean_title "(offi[HQ]cial)") = "" /\
  clean_title (clean_title "(offi[HQ]cial)") <> clean_title "(offi[HQ]cial)".
Proof.
  split; [reflexivity | split; [reflexivity | discriminate]].
Qed.

(** ** The change detector *)

Lemma set_last_title_same (st : State) (t : string) :
  last_title st = Some t -> set_last_title (Some t) st = st.
Proof.
  destruct st as [l r s i lt cs cl nl tl]; simpl.
  intros ->. reflexivity.
Qed.

Lemma eqb_neq_iff (a b : string) : negb (String.eqb a b) = true <-> a <> b.
Proof.
  rewrite negb_true_iff. apply String.eqb_neq.
Qed.

Lemma check_title_change_live (ws : option (list string)) (st : State)
  (current last : string) :
  is_loading st = false ->
  sampled ws = Some current ->
  last_title st = Some last ->
  check_title_change ws st =
    (set_last_title (Some current) st,
     negb (String.eqb current last)
     && negb (String.eqb (clean_title last) (clean_title current))).
Proof.
  intros Hl Hs Ht. unfold check_title_change. rewrite Hl, Hs, Ht.
  destruct (String.eqb current last) eqn:Hraw; simpl.
  - apply String.eqb_eq in Hraw. subst last.
    now rewrite set_last_title_same.
  - destruct (String.eqb (clean_title last) (clean_title current));
      reflexivity.
Qed.

(** C2. With no load in flight, a sampled window title and a last
    observed title, [check_title_change] answers true exactly when the
    raw titles differ and their cleaned forms differ; the sampled title
    becomes [last_title] in every case and nothing else changes, so the
    same sample is not reported on the next tick. While a load is in
    flight, or with no window, it answers false and changes nothing. *)
Theorem check_title_change_guard (ws : option (list string)) (st : State) :
  (is_loading st = true -> check_title_change ws st = (st, false)) /\
  (sampled ws = None -> check_title_change ws st = (st, false)) /\
  (forall current last : string,
      is_loading st = false ->
      sampled ws = Some current ->
      last_title st = Some last ->
      let st' := fst (check_title_change ws st) in
      (snd (check_title_change ws st) = true <->
       current <> last /\ clean_title current <> clean_title last) /\
      st' = set_last_title (Some current) st /\
      (current <> last -> clean_title current = clean_title last ->
       snd (check_title_change ws st) = false /\
       last_title st' = Some current) /\
      snd (check_title_change ws st') = false).
Proof.
  split; [| split].
  - intros Hl. unfold check_title_change. rewrite Hl. reflexivity.
  - intros Hs. unfold check_title_change. rewrite Hs.
    destruct (is_loading st); reflexivity.
  - intros current last Hl Hs Ht. cbv zeta.
    rewrite (check_title_change_live ws st current last Hl Hs Ht).
    cbn [fst snd].
    rewrite (check_title_change_live ws _ current current);
      [| exact Hl | exact Hs | reflexivity].
    rewrite String.eqb_refl. cbn [fst snd negb andb].
    rewrite andb_true_iff, !eqb_neq_iff.
    split; [| split; [| split]].
    + split; intros [H1 H2]; split; congruence.
    + reflexivity.
    + intros Hne Hc. split; [| reflexivity].
      apply andb_false_iff. right.
      rewrite Hc, String.eqb_refl. reflexivity.
    + reflexivity.
Qed.

(** ** Loading a song *)

Lemma load_song_reentrant (env : Env) (w : World) :
  is_loading (self w) = true -> load_song env w = (w, Ok false).
Proof.
  intros H. unfold load_song. rewrite H. reflexivity.
Qed.

Lemma load_song_runs (env : Env) (w w' : World) (out : result bool) :
  is_loading (self w) = false ->
  load_song env w = (w', out) ->
  load_run env w w' out.
Proof.
  intros Hl. unfold load_song. rewrite Hl.
  unfold load_song_try, try_finally, bind, on_self, modify; cbn [self sent].
  destruct (sampled (windows env)) as [yt|] eqn:Hs.
  - destruct (parse_song yt) as [[artist song] full] eqn:Hp.
    cbn [self sent]. unfold call_search. cbn [self sent].
    destruct (search_lrclib (net env) artist song []) as [reqs r] eqn:Hq.
    destruct r as [[v|]|e].
    + destruct (json_truthy v) eqn:Hv.
      * destruct v; cbn [call_parse_lrc raise ret fst snd self sent];
          intros E; inversion E; subst; clear E;
          eapply run_fetched; eauto;
          try (apply out_not_text; [exact Hv | exact I]).
        now apply out_loaded.
      * cbn [ret fst snd self sent].
        intros E; inversion E; subst; clear E.
        eapply run_fetched; eauto.
        now apply (out_not_found _ _ _ (Some v)).
    + cbn [ret fst snd self sent].
      intros E; inversion E; subst; clear E.
      eapply run_fetched; eauto. now apply (out_not_found _ _ _ None).
    + intros E; inversion E; subst; clear E.
      eapply run_fetched; eauto. apply out_search_raised.
  - cbn. intros E; inversion E; subst; clear E. now apply run_no_window.
Qed.


(** C4. A call made while a load is in flight returns false at once and
    changes nothing. Any other call ends with [is_loading] false, on a
    normal return and on an exception alike, and every request it sends
    leaves while [is_loading] is true, so that a call made at that
    moment returns false and changes nothing. *)
Theorem load_song_loading_flag (env : Env) (w : World) :
  (is_loading (self w) = true -> load_song env w = (w, Ok false)) /\
  (is_loading (self w) = false ->
   is_loading (self (fst (load_song env w))) = false /\
   exists new : list (request * State),
     sent (fst (load_song env w)) = sent w ++ new /\
     Forall
       (fun qs =>
          is_loading (snd qs) = true /\
          forall (env' : Env) (log : list (request * State)),
            load_song env' {| self := snd qs; sent := log |} =
              ({| self := snd qs; sent := log |}, Ok false))
       new).
Proof.
  split; [apply load_song_reentrant |].
  intros Hl.
  destruct (load_song env w) as [w' out] eqn:E.
  apply load_song_runs in E; [| exact Hl].
  cbn [fst].
  destruct E as [Hs | yt artist song full reqs r mid fin out Hs Hp Hmid Hq Ho].
  - cbn [self sent]. split; [reflexivity |].
    exists []. rewrite app_nil_r. split; [reflexivity | constructor].
  - cbn [self sent]. split; [reflexivity |].
    exists (map (fun q => (q, mid)) reqs). split; [reflexivity |].
    apply Forall_forall. intros [q snap] Hin.
    apply in_map_iff in Hin. destruct Hin as [q' [Hq' _]].
    inversion Hq'; subst q' snap. cbn [snd].
    assert (Hmidl : is_loading mid = true) by (subst mid; reflexivity).
    split; [exact Hmidl |].
    intros env' log. now apply load_song_reentrant.
Qed.


(** C3. A call of [load_song] that returns true leaves in [start_time]
    the second clock reading taken after the fetch minus the load time,
    which is the first such reading minus the reading taken when the
    load began. Time counted from [start_time] is therefore the time
    since the load began, less the gap between the two readings taken
    after the fetch: the two agree within any tolerance that bounds this
    gap. *)
Theorem load_song_start_time (env : Env) (w w' : World) :
  load_song env w = (w', Ok true) ->
  start_time (self w') == clock env 2 - (clock env 1 - clock env 0) /\
  (forall now : Q,
      now - start_time (self w') ==
        (now - clock env 0) - (clock env 2 - clock env 1)) /\
  (forall now eps : Q,
      0 <= clock env 2 - clock env 1 ->
      clock env 2 - clock env 1 <= eps ->
      Qabs ((now - start_time (self w')) - (now - clock env 0)) <= eps).
Proof.
  intros E.
  destruct (is_loading (self w)) eqn:Hl.
  { rewrite (load_song_reentrant env w Hl) in E. discriminate. }
  apply load_song_runs in E; [| exact Hl].
  inversion E as [| yt artist song full reqs r mid fin out Hs Hp Hmid Hq Ho];
    subst.
  inversion Ho; subst. cbn [self start_time set_is_loading set_title_label
    set_current_song set_start_time].
  assert (Hst : Qred (clock env 2 - (clock env 1 - clock env 0))
                == clock env 2 - (clock env 1 - clock env 0))
    by apply Qred_correct.
  split; [exact Hst | split].
  - intros now. rewrite Hst. ring.
  - intros now eps H0 H1. rewrite Hst.
    apply Qabs_Qle_condition. split; lra.
Qed.

(** ** The client *)

Lemma synced_lyrics_run (resp : response) (log : list request) :
  synced_lyrics resp log = (log, Ok (carried_lyrics (Ok resp))) \/
  (exists e, synced_lyrics resp log = (log, Raise e)) /\
  carried_lyrics (Ok resp) = None /\
  (status_code resp = 200%Z /\ forall ms, body resp <> Some (JObj ms)).
Proof.
  unfold synced_lyrics, carried_lyrics, bind, resp_json, dict_get.
  destruct (status_code resp =? 200)%Z eqn:Hst; [| now left].
  apply Z.eqb_eq in Hst.
  destruct (body resp) as [[| b | q | s | xs | ms]|];
    try (right; split; [eexists; reflexivity | split; [reflexivity |
           split; [exact Hst | congruence]]]).
  left. cbn.
  destruct (assoc "syncedLyrics" ms) as [v|]; cbn.
  - destruct (json_truthy v); reflexivity.
  - reflexivity.
Qed.

Lemma synced_lyrics_caught (resp : response) (log : list request) :
  try_except (synced_lyrics resp) (fun _ => ret None) log =
    (log, Ok (carried_lyrics (Ok resp))).
Proof.
  unfold try_except.
  destruct (synced_lyrics_run resp log) as [E | [[e E] [Hn _]]];
    rewrite E; [reflexivity |].
  now rewrite Hn.
Qed.

Lemma search_query_run (net : Net) (q : list (string * string))
  (log : list request) :
  search_query net q log =
    (log ++ fst (attempt net (List.length log) (SearchCall q)),
     Ok (snd (attempt net (List.length log) (SearchCall q)))).
Proof.
  unfold search_query, search_attempt, try_except, bind, requests_get,
    attempt, first_candidate.
  destruct (net (List.length log) (ApiSearch q)) as [resp|e];
    [| reflexivity].
  destruct (status_code resp =? 200)%Z; [| reflexivity].
  unfold resp_json.
  destruct (body resp) as [results|]; [| reflexivity]. cbn [ret raise].
  destruct results as [| b | x | s | xs | ms]; cbn [json_truthy];
    try reflexivity.
  - destruct b; reflexivity.
  - destruct (negb (Qeq_bool x 0)); reflexivity.
  - destruct s; reflexivity.
  - destruct xs as [|first xs]; [reflexivity |]. cbn [first_item ret].
    destruct first as [| b | x | s | ys | ms]; cbn [dict_get raise ret];
      try reflexivity.
    assert (Hid : json_truthy
                    match assoc "id" ms with Some x => x | None => JNull end
                  = match assoc "id" ms with
                    | Some id => json_truthy id
                    | None => false
                    end) by (destruct (assoc "id" ms); reflexivity).
    rewrite Hid.
    destruct (assoc "id" ms) as [id|]; [| reflexivity].
    destruct (json_truthy id); [| reflexivity].
    cbn [fst snd].
    replace (List.length (log ++ [ApiSearch q])) with (S (List.length log))
      by (rewrite length_app; cbn; lia).
    destruct (net (S (List.length log)) (ApiGetId id)) as [resp2|e2].
    + destruct (synced_lyrics_run resp2
                  ((log ++ [ApiSearch q]) ++ [ApiGetId id]))
        as [E | [[e E] [Hn _]]]; rewrite E; [| rewrite Hn];
        rewrite <- app_assoc; reflexivity.
    + rewrite <- app_assoc. reflexivity.
  - destruct ms; reflexivity.
Qed.

Lemma try_queries_run (net : Net) (qs : list (list (string * string)))
  (log : list request) :
  try_queries net qs log =
    (log ++ fst (first_success net (List.length log) (map SearchCall qs)),
     Ok (snd (first_success net (List.length log) (map SearchCall qs)))).
Proof.
  revert log. induction qs as [|q qs IH]; intros log.
  - cbn. now rewrite app_nil_r.
  - cbn [try_queries map first_success]. unfold bind.
    rewrite search_query_run.
    destruct (attempt net (List.length log) (SearchCall q)) as [reqs [v|]];
      cbn [fst snd]; [reflexivity |].
    rewrite IH, length_app.
    destruct (first_success net (List.length log + List.length reqs)%nat
                (map SearchCall qs)) as [more r].
    cbn [fst snd]. now rewrite app_assoc.
Qed.

Lemma truthy_nonempty (s : string) : Str.truthy s = nonempty s.
Proof. destruct s; reflexivity. Qed.

Lemma strategy_order_split (artist song : string) :
  strategy_order artist song =
    match exact_params artist song with
    | [] => []
    | params => [ExactMatch params]
    end ++ map SearchCall (queries artist song).
Proof.
  unfold strategy_order, exact_params, queries.
  rewrite !truthy_nonempty.
  destruct song, artist; reflexivity.
Qed.

Lemma carried_lyrics_some (net : Net) (n : nat) (q : request) (v : json) :
  carried_lyrics (net n q) = Some v ->
  json_truthy v = true /\ from_response net v.
Proof.
  unfold carried_lyrics.
  destruct (net n q) as [resp|e] eqn:E; [| discriminate].
  destruct (status_code resp =? 200)%Z eqn:Hst; [| discriminate].
  apply Z.eqb_eq in Hst.
  destruct (body resp) as [[| b | x | s | xs | ms]|] eqn:Hb; try discriminate.
  destruct (assoc "syncedLyrics" ms) as [v'|] eqn:Ha; [| discriminate].
  destruct (json_truthy v') eqn:Hv; [| discriminate].
  intros H; inversion H; subst v'.
  split; [exact Hv |]. now exists n, q, resp, ms.
Qed.

Lemma attempt_some (net : Net) (n : nat) (s : strategy) (v : json) :
  snd (attempt net n s) = Some v ->
  json_truthy v = true /\ from_response net v.
Proof.
  destruct s as [params | query]; cbn [attempt].
  - apply carried_lyrics_some.
  - destruct (first_candidate (net n (ApiSearch query))) as [id|];
      cbn [snd]; [apply carried_lyrics_some | discriminate].
Qed.

Lemma first_success_some (net : Net) (ss : list strategy) (n : nat)
  (v : json) :
  snd (first_success net n ss) = Some v ->
  json_truthy v = true /\ from_response net v.
Proof.
  revert n. induction ss as [|s ss IH]; intros n; cbn [first_success].
  - discriminate.
  - destruct (attempt net n s) as [reqs [v'|]] eqn:E.
    + cbn [snd]. intros H; inversion H; subst v'.
      apply (attempt_some net n s). now rewrite E.
    + destruct (first_success net (n + List.length reqs)%nat ss) as [more r]
        eqn:E'.
      cbn [snd]. intros H. apply (IH (n + List.length reqs)%nat).
      now rewrite E'.
Qed.

Lemma search_lrclib_run (net : Net) (artist song : string)
  (log : list request) :
  let fs := first_success net (List.length log) (strategy_order artist song) in
  (exact_answered net (List.length log) artist song /\
   search_lrclib net artist song log = (log ++ fst fs, Ok (snd fs))) \/
  (exact_raises net (List.length log) artist song /\
   search_lrclib net artist song log =
     (log ++ [ApiGet (exact_params artist song)], Ok None)).
Proof.
  cbv zeta. rewrite strategy_order_split.
  unfold search_lrclib, try_except, bind, exact_lookup, exact_answered,
    exact_raises.
  destruct (exact_params artist song) as [|p ps] eqn:Hp.
  - left. split; [now left |].
    cbn [ret List.app]. now rewrite try_queries_run.
  - cbv beta iota. set (params := p :: ps) in *.
    unfold bind, requests_get. cbn [List.app first_success attempt].
    destruct (net (List.length log) (ApiGet params)) as [resp|e] eqn:Hn.
    + destruct (synced_lyrics_run resp (log ++ [ApiGet params]))
        as [E | [[e E] [Hc [Hst Hb]]]]; rewrite E.
      * left. split.
        { right. exists resp. split; [reflexivity |].
          destruct (Z.eq_dec (status_code resp) 200) as [Hs|Hs];
            [| now left].
          right. revert E. unfold synced_lyrics, bind, resp_json, dict_get.
          rewrite Hs. cbn.
          destruct (body resp) as [[| b | x | s | xs | ms]|];
            cbn; try discriminate.
          intros _. now exists ms. }
        destruct (carried_lyrics (Ok resp)) as [v|]; cbn [fst snd ret].
        { reflexivity. }
        rewrite try_queries_run, length_app. cbn [List.length].
        destruct (first_success net (List.length log + 1)%nat
                    (map SearchCall (queries artist song))) as [more r].
        cbn [fst snd]. now rewrite <- app_assoc.
      * right. split; [| reflexivity].
        split; [discriminate |]. right. now exists resp.
    + right. split; [| reflexivity].
      split; [discriminate |]. left. now exists e.
Qed.

(** C7, as the code has it. [search_lrclib] never raises: whatever the
    HTTP layer does, the call returns, and it returns either none or the
    truthy [syncedLyrics] member of the object in a response with status
    200, which is a non-empty string whenever it is a string. *)
Theorem search_lrclib_never_raises (net : Net) (artist song : string)
  (log : list request) :
  exists (log' : list request) (r : option json),
    search_lrclib net artist song log = (log', Ok r) /\
    match r with
    | Some v =>
        json_truthy v = true /\ from_response net v /\
        (forall s : string, v = JStr s -> s <> EmptyString)
    | None => True
    end.
Proof.
  destruct (search_lrclib_run net artist song log) as [[_ E] | [_ E]];
    rewrite E; eexists; eexists; (split; [reflexivity |]); [| exact I].
  destruct (snd (first_success net (List.length log)
                   (strategy_order artist song))) as [v|] eqn:Hv;
    [| exact I].
  apply first_success_some in Hv. destruct Hv as [Ht Hf].
  split; [exact Ht | split; [exact Hf |]].
  intros s -> ->. discriminate.
Qed.

(** C8, as the code has it. When the exact lookup is skipped or
    answered, [search_lrclib] sends the requests of the strategies in
    their order (the exact lookup, the search by artist and track, the
    free-text search of both, the free-text search of the song) up to
    the first one that succeeds, and returns what that one found, or
    none when none succeeds. *)
Theorem search_lrclib_cascade (net : Net) (artist song : string)
  (log : list request) :
  exact_answered net (List.length log) artist song ->
  search_lrclib net artist song log =
    (log ++ fst (first_success net (List.length log)
                   (strategy_order artist song)),
     Ok (snd (first_success net (List.length log)
                (strategy_order artist song)))).
Proof.
  intros Ha.
  destruct (search_lrclib_run net artist song log)
    as [[_ E] | [[Hne Hr] _]]; [exact E |].
  exfalso. destruct Ha as [Hnil | [resp [Hn Hok]]]; [now elim Hne |].
  destruct Hr as [[e He] | [resp' [Hn' [Hst Hb]]]].
  - congruence.
  - rewrite Hn in Hn'. inversion Hn'; subst resp'.
    destruct Hok as [Hok | [ms Hok]]; [now elim Hok | now elim (Hb ms)].
Qed.

(** ** The current line *)

Lemma scan_last_reached (ls : list Lyric) (elapsed : Q) (i cur : nat) :
  scan ls elapsed i cur =
    match last_reached ls elapsed with
    | Some j => (i + j)%nat
    | None => cur
    end.
Proof.
  revert i cur. induction ls as [|l rest IH]; intros i cur; cbn.
  - reflexivity.
  - rewrite IH. destruct (last_reached rest elapsed) as [j|].
    + lia.
    + destruct (Qle_bool (time l) elapsed); [lia | reflexivity].
Qed.

Lemma last_reached_none (ls : list Lyric) (elapsed : Q) :
  last_reached ls elapsed = None <->
  forall l, In l ls -> elapsed < time l.
Proof.
  induction ls as [|l rest IH]; cbn.
  - split; [intros _ l [] | reflexivity].
  - destruct (last_reached rest elapsed) as [j|].
    + split; [discriminate |]. intros H.
      assert (Hn : Some j = None) by (apply IH; intros; apply H; now right).
      discriminate.
    + destruct (Qle_bool (time l) elapsed) eqn:Hle.
      * split; [discriminate |]. intros H.
        apply Qle_bool_iff in Hle. specialize (H l (or_introl eq_refl)).
        lra.
      * split; [| reflexivity]. intros _ l' [<- | Hin].
        -- apply Qnot_le_lt. intros Hc. apply Qle_bool_iff in Hc. congruence.
        -- now apply (proj1 IH).
Qed.

Lemma last_reached_some (ls : list Lyric) (elapsed : Q) (j : nat) :
  last_reached ls elapsed = Some j ->
  (exists lj, nth_error ls j = Some lj /\ time lj <= elapsed) /\
  (forall k lk, nth_error ls k = Some lk -> time lk <= elapsed ->
                (k <= j)%nat).
Proof.
  revert j. induction ls as [|l rest IH]; intros j; cbn.
  - discriminate.
  - destruct (last_reached rest elapsed) as [j'|] eqn:Hr.
    + intros H; inversion H; subst j. destruct (IH j' eq_refl) as [He Hm].
      split; [exact He |].
      intros [|k] lk Hk Hle; [lia |]. cbn in Hk.
      specialize (Hm k lk Hk Hle). lia.
    + destruct (Qle_bool (time l) elapsed) eqn:Hle; [| discriminate].
      intros H; inversion H; subst j. apply Qle_bool_iff in Hle.
      split; [now exists l |].
      intros [|k] lk Hk Hlk; [lia |]. cbn in Hk.
      apply nth_error_In in Hk.
      pose proof (proj1 (last_reached_none rest elapsed) Hr lk Hk). lra.
Qed.

Lemma by_time_trans : Relations_1.Transitive by_time.
Proof.
  intros a b c Hab Hbc. unfold by_time in *. lra.
Qed.

Lemma sorted_nth_le (ls : list Lyric) :
  Sorted by_time ls ->
  forall j k lj lk, (k <= j)%nat ->
    nth_error ls k = Some lk -> nth_error ls j = Some lj ->
    time lk <= time lj.
Proof.
  intros Hs. apply Sorted_StronglySorted in Hs; [| exact by_time_trans].
  induction Hs as [|l rest Hs IH Hall]; intros j k lj lk Hkj Hk Hj.
  - destruct k; discriminate.
  - destruct k as [|k], j as [|j]; cbn in Hk, Hj.
    + inversion Hk; inversion Hj; subst. lra.
    + inversion Hk; subst lk. apply nth_error_In in Hj.
      rewrite Forall_forall in Hall. exact (Hall lj Hj).
    + lia.
    + apply (IH j k); [lia | assumption | assumption].
Qed.

Lemma nth_error_last (ls : list Lyric) (l0 d : Lyric) :
  nth_error (l0 :: ls) (List.length ls) = Some (last (l0 :: ls) d).
Proof.
  revert l0. induction ls as [|l rest IH]; intros l0.
  - reflexivity.
  - cbn [List.length nth_error]. rewrite (IH l). reflexivity.
Qed.

(** C1, as the code has it. With no lines nothing is shown. For lines
    sorted by time: before the first line's time the scan answers
    index 0; from the first line's time on it answers the last index
    whose line is reached, a line of the greatest time not after
    [elapsed]; and once the last line is reached it answers the last
    index. *)
Theorem currentIndex_scan :
  (forall elapsed : Q, currentIndex [] elapsed = None) /\
  (forall (l0 : Lyric) (rest : list Lyric) (elapsed : Q),
      let ls := l0 :: rest in
      Sorted by_time ls ->
      (elapsed < time l0 -> currentIndex ls elapsed = Some 0%nat) /\
      (time l0 <= elapsed ->
       exists (i : nat) (li : Lyric),
         currentIndex ls elapsed = Some i /\
         nth_error ls i = Some li /\ time li <= elapsed /\
         forall (k : nat) (lk : Lyric),
           nth_error ls k = Some lk -> time lk <= elapsed ->
           (k <= i)%nat /\ time lk <= time li) /\
      (time (last ls l0) <= elapsed ->
       currentIndex ls elapsed = Some (List.length ls - 1)%nat)).
Proof.
  split; [reflexivity |].
  intros l0 rest elapsed ls Hs.
  assert (Hcur : currentIndex ls elapsed =
                 Some match last_reached ls elapsed with
                      | Some j => j
                      | None => 0%nat
                      end).
  { unfold currentIndex, ls. rewrite scan_last_reached.
    fold ls. destruct (last_reached ls elapsed) as [j|] eqn:Hr.
    - destruct (last_reached_some ls elapsed j Hr) as [[lj [Hj _]] _].
      assert (Hlt : (j < List.length ls)%nat)
        by (apply nth_error_Some; congruence).
      apply Nat.ltb_lt in Hlt. cbn [Nat.add]. now rewrite Hlt.
    - reflexivity. }
  assert (Hsome : time l0 <= elapsed ->
                  exists j, last_reached ls elapsed = Some j).
  { intros Hle. destruct (last_reached ls elapsed) as [j|] eqn:Hr;
      [now exists j |].
    pose proof (proj1 (last_reached_none ls elapsed) Hr l0
                  (or_introl eq_refl)). lra. }
  split; [| split].
  - intros Hlt. rewrite Hcur.
    replace (last_reached ls elapsed) with (@None nat); [reflexivity |].
    symmetry. apply last_reached_none. intros l Hin.
    destruct (In_nth_error _ _ Hin) as [k Hk].
    assert (H0 : nth_error ls 0 = Some l0) by reflexivity.
    pose proof (sorted_nth_le ls Hs k 0%nat l l0 (Nat.le_0_l k) H0 Hk).
    lra.
  - intros Hle. destruct (Hsome Hle) as [j Hr].
    destruct (last_reached_some ls elapsed j Hr) as [[lj [Hj Hlj]] Hmax].
    exists j, lj. rewrite Hcur, Hr.
    repeat split; try assumption.
    + now apply (Hmax k lk).
    + apply (sorted_nth_le ls Hs j k lj lk); try assumption.
      now apply (Hmax k lk).
  - intros Hle.
    assert (Hfirst : time l0 <= elapsed).
    { assert (H0 : nth_error ls 0 = Some l0) by reflexivity.
      pose proof (sorted_nth_le ls Hs (List.length rest) 0%nat _ l0
                    (Nat.le_0_l _) H0 (nth_error_last rest l0 l0)).
      unfold ls in Hle. lra. }
    destruct (Hsome Hfirst) as [j Hr].
    destruct (last_reached_some ls elapsed j Hr) as [[lj [Hj Hlj]] Hmax].
    rewrite Hcur, Hr. f_equal.
    assert (Hlt : (j < List.length ls)%nat)
      by (apply nth_error_Some; congruence).
    pose proof (Hmax (List.length rest) _ (nth_error_last rest l0 l0) Hle).
    unfold ls in *. cbn [List.length] in *. lia.
Qed.

(** C1 does not hold as the specification states it: before the first line's time the
    scan answers index 0, and the first line is shown. *)
Lemma currentIndex_before_first_line :
  let ls := [ {| time := 5; text := "World" |};
              {| time := 25 # 2; text := "Hello" |} ] in
  Sorted by_time ls /\ 1 < 5 /\
  currentIndex ls 1 = Some 0%nat /\ currentIndex ls 1 <> None /\
  current_label
    (update_display 1 (set_lyrics ls initial)) = ("World", Yellow).
Proof.
  cbv zeta. split; [| split; [| split; [| split]]].
  - repeat constructor; unfold by_time; cbn; lra.
  - lra.
  - reflexivity.
  - discriminate.
  - reflexivity.
Qed.

Lemma currentIndex_scan_witness :
  let ls := [ {| time := 5; text := "World" |};
              {| time := 25 # 2; text := "Hello" |} ] in
  Sorted by_time ls /\ 1 < 5 /\ currentIndex ls 1 = Some 0%nat.
Proof.
  cbv zeta.
  assert (Hs : Sorted by_time [ {| time := 5; text := "World" |};
                                {| time := 25 # 2; text := "Hello" |} ])
    by (repeat constructor; unfold by_time; cbn; lra).
  assert (Hlt : 1 < 5) by lra.
  split; [exact Hs | split; [exact Hlt |]].
  exact (proj1 (proj2 currentIndex_scan _ _ 1 Hs) Hlt).
Defined.

(** ** Sample runs *)

(** C7 does not hold as the specification states it: the value returned is whatever truthy
    value stands under [syncedLyrics], here a number, which is neither a
    lyrics string nor none. *)
Lemma search_lrclib_returns_number :
  search_lrclib net_number "Rick" "Roll" [] =
    ([ApiGet [("track_name", "Roll"); ("artist_name", "Rick")]],
     Ok (Some (JNum 5))) /\
  (forall s : string, JNum 5 <> JStr s).
Proof.
  split; [reflexivity | discriminate].
Qed.

(** C8 does not hold as the specification states it, twice: a truthy [syncedLyrics] that is
    not a string counts as a success; and an exact lookup answered with
    status 200 and a body that is not an object ends the whole call with
    none, although the first search would have found the song. *)
Lemma search_lrclib_cascade_breaks :
  search_lrclib net_number "Rick" "Roll" [] =
    ([ApiGet [("track_name", "Roll"); ("artist_name", "Rick")]],
     Ok (Some (JNum 5))) /\
  search_lrclib net_list "Rick" "Roll" [] =
    ([ApiGet [("track_name", "Roll"); ("artist_name", "Rick")]], Ok None) /\
  first_success net_list 0 (strategy_order "Rick" "Roll") =
    ([ApiGet [("track_name", "Roll"); ("artist_name", "Rick")];
      ApiSearch [("artist_name", "Rick"); ("track_name", "Roll")];
      ApiGetId (JNum 7)],
     Some (JStr "[00:01.00]la")).
Proof.
  repeat split; reflexivity.
Qed.

Lemma search_lrclib_cascade_witness :
  exact_answered net_search 0 "Rick" "Roll" /\
  search_lrclib net_search "Rick" "Roll" [] =
    ([ApiGet [("track_name", "Roll"); ("artist_name", "Rick")];
      ApiSearch [("artist_name", "Rick"); ("track_name", "Roll")];
      ApiGetId (JNum 7)],
     Ok (Some (JStr "[00:01.00]la"))).
Proof.
  assert (H : exact_answered net_search 0 "Rick" "Roll").
  { right. eexists. split; [reflexivity |]. left. discriminate. }
  split; [exact H |].
  exact (search_lrclib_cascade net_search "Rick" "Roll" [] H).
Defined.

Lemma check_title_change_guard_witness :
  let ws := Some ["Song A - YouTube"] in
  let st := set_last_title (Some "Song A (Official Video) - YouTube") initial in
  check_title_change ws st = (set_last_title (Some "Song A - YouTube") st, false)
  /\ snd (check_title_change ws (fst (check_title_change ws st))) = false.
Proof.
  cbv zeta.
  destruct (proj2 (proj2 (check_title_change_guard
                            (Some ["Song A - YouTube"])
                            (set_last_title
                               (Some "Song A (Official Video) - YouTube")
                               initial)))
              "Song A - YouTube" "Song A (Official Video) - YouTube"
              eq_refl eq_refl eq_refl) as [_ [_ [_ H]]].
  split; [reflexivity | exact H].
Defined.

Lemma load_song_loading_flag_witness :
  let env := {| windows := tab; net := net_number;
                clock := fun n => inject_Z (Z.of_nat n) |} in
  snd (load_song env fresh) = Raise AttributeError /\
  is_loading (self (fst (load_song env fresh))) = false.
Proof.
  cbv zeta. split; [reflexivity |].
  exact (proj1 (proj2 (load_song_loading_flag _ fresh) eq_refl)).
Defined.


Lemma load_song_start_time_witness :
  let env := {| windows := tab; net := net_search;
                clock := fun n => match n with
                                  | 0%nat => 10
                                  | 1%nat => 13
                                  | _ => 1301 # 100
                                  end |} in
  snd (load_song env fresh) = Ok true /\
  start_time (self (fst (load_song env fresh))) == (1301 # 100) - (13 - 10).
Proof.
  cbv zeta. split; [reflexivity |].
  exact (proj1 (load_song_start_time
                  {| windows := tab; net := net_search;
                     clock := fun n => match n with
                                       | 0%nat => 10
                                       | 1%nat => 13
                                       | _ => 1301 # 100
                                       end |}
                  fresh _ eq_refl)).
Defined.

(** * Further properties of the overlay *)

(** ** Finding the window *)

(** The test of [find_youtube_window] on one title. *)
Definition qualifies (title : string) : bool :=
  Str.contains "youtube" (Str.lower title) && Str.truthy (Str.strip title).

Lemma lower_append (a b : string) :
  Str.lower (a ++ b) = (Str.lower a ++ Str.lower b)%string.
Proof. induction a as [|c a IH]; cbn; [reflexivity | now rewrite IH]. Qed.

Lemma prefix_append (a b : string) : prefix a (a ++ b) = true.
Proof.
  induction a as [|c a IH]; cbn; [now destruct b |].
  destruct (ascii_dec c c) as [_|N]; [exact IH | now elim N].
Qed.

Lemma contains_middle (sub a b : string) :
  Str.contains sub (a ++ sub ++ b) = true.
Proof.
  unfold Str.contains. induction a as [|c a IH].
  - cbn [append]. destruct (sub ++ b)%string eqn:E; cbn [Str.split_once].
    + rewrite <- E, prefix_append. reflexivity.
    + rewrite <- E, prefix_append. reflexivity.
  - cbn [append Str.split_once].
    destruct (prefix sub (String c (a ++ sub ++ b))); [reflexivity |].
    destruct (Str.split_once sub (a ++ sub ++ b)) as [[x y]|];
      [reflexivity | discriminate].
Qed.

Lemma rstrip_head (c : ascii) (s : string) :
  Str.is_space c = false -> Str.rstrip (String c s) <> EmptyString.
Proof. intros H. cbn. rewrite H. discriminate. Qed.

Lemma strip_blank (s : string) :
  Str.strip s = EmptyString -> all_of Str.is_space s = true.
Proof.
  unfold Str.strip. induction s as [|c s IH]; cbn; [reflexivity |].
  destruct (Str.is_space c) eqn:Hc; [exact IH |].
  cbn. rewrite Hc. discriminate.
Qed.

Lemma strip_not_blank (s : string) :
  all_of Str.is_space s = false -> Str.truthy (Str.strip s) = true.
Proof.
  intros H. apply truthy_iff. intros E. apply strip_blank in E. congruence.
Qed.

Lemma lower_youtube_not_blank (y : string) :
  Str.lower y = "youtube" -> all_of Str.is_space y = false.
Proof.
  destruct y as [|c y]; [discriminate |]. cbn. intros E.
  inversion E as [[Hc Hy]].
  destruct (Str.is_space c) eqn:Hs; [| reflexivity].
  exfalso. revert Hc Hs. unfold Str.lower_char, Str.is_space. cbv zeta.
  destruct c as [[] [] [] [] [] [] [] []]; cbn; discriminate.
Qed.

Lemma first_youtube_spec (titles : list string) :
  match first_youtube titles with
  | Some t =>
      exists pre post : list string,
        titles = pre ++ t :: post /\ qualifies t = true /\
        Forall (fun u => qualifies u = false) pre
  | None => Forall (fun u => qualifies u = false) titles
  end.
Proof.
  induction titles as [|t titles IH]; cbn [first_youtube]; [constructor |].
  fold (qualifies t). destruct (qualifies t) eqn:Hq.
  - exists [], titles. repeat split; [assumption | constructor].
  - destruct (first_youtube titles) as [u|].
    + destruct IH as [pre [post [E [Hu Hpre]]]].
      exists (t :: pre), post. subst titles.
      repeat split; [assumption | now constructor].
    + now constructor.
Qed.

(** X1. [find_youtube_window] answers the first title of the window list
    that contains "youtube" in its lower-cased form and is not blank:
    no earlier title passes the test, and with no such title, or when
    the window list cannot be read, it answers none. A title it answers
    is never empty, so the callers' [if not ...] only meets none. *)
Theorem find_youtube_window_first (ws : option (list string)) :
  match find_youtube_window ws with
  | Some t =>
      exists titles pre post : list string,
        ws = Some titles /\ titles = pre ++ t :: post /\
        qualifies t = true /\ Forall (fun u => qualifies u = false) pre /\
        t <> EmptyString /\ sampled ws = Some t
  | None =>
      sampled ws = None /\
      forall titles, ws = Some titles ->
                     Forall (fun u => qualifies u = false) titles
  end.
Proof.
  unfold sampled. destruct ws as [titles|]; cbn [find_youtube_window].
  - pose proof (first_youtube_spec titles) as H.
    destruct (first_youtube titles) as [t|].
    + destruct H as [pre [post [E [Hq Hpre]]]].
      assert (Ht : Str.truthy t = true).
      { unfold qualifies in Hq. apply andb_true_iff in Hq.
        destruct Hq as [_ Hq]. destruct t; [discriminate | reflexivity]. }
      exists titles, pre, post. rewrite Ht.
      repeat split; try assumption. now apply truthy_iff.
    + split; [reflexivity |]. intros titles' E. now inversion E; subst.
  - split; [reflexivity | discriminate].
Qed.

(** X2. The platform marker is found whatever its letter case: a title
    that contains a word whose lower-cased form is "youtube" passes the
    test, and is the answer when it stands first in the window list. *)
Theorem find_youtube_window_any_case (a y b : string)
  (rest : list string) :
  Str.lower y = "youtube" ->
  qualifies (a ++ y ++ b) = true /\
  find_youtube_window (Some ((a ++ y ++ b)%string :: rest))
    = Some (a ++ y ++ b)%string.
Proof.
  intros Hy.
  assert (Hq : qualifies (a ++ y ++ b) = true).
  { unfold qualifies. apply andb_true_iff. split.
    - rewrite !lower_append, Hy. apply contains_middle.
    - apply strip_not_blank. rewrite !all_of_append.
      rewrite (lower_youtube_not_blank y Hy).
      now rewrite andb_false_r. }
  split; [exact Hq |].
  cbn [find_youtube_window first_youtube]. fold (qualifies (a ++ y ++ b)).
  now rewrite Hq.
Qed.

Lemma find_youtube_window_any_case_witness :
  qualifies "Song - YOUTUBE - Brave" = true /\
  find_youtube_window (Some ["Song - YOUTUBE - Brave"; "Inbox"])
    = Some "Song - YOUTUBE - Brave".
Proof.
  exact (find_youtube_window_any_case "Song - " "YOUTUBE" " - Brave"
           ["Inbox"] eq_refl).
Defined.

(** ** What a cleaned title looks like *)

(** [s] read from a position that follows whitespace ([sp]) or not: no
    whitespace character after another, no whitespace character but the
    space, and no whitespace character at the end. *)
Fixpoint tidy_from (sp : bool) (s : string) : bool :=
  match s with
  | EmptyString => negb sp
  | String c s' =>
      if Str.is_space c
      then negb sp && Ascii.eqb c " " && tidy_from true s'
      else tidy_from false s'
  end.

(** A tidy string is empty, or begins and ends with a character that is
    not whitespace and has single spaces as its only whitespace. *)
Definition tidy (s : string) : bool := Str.is_empty s || tidy_from true s.

Definition no_pipe (s : string) : bool :=
  all_of (fun c => negb (Ascii.eqb c "|")) s.

Lemma tidy_from_word (w r : string) (sp : bool) :
  word w -> tidy_from sp (w ++ r) = tidy_from false r.
Proof.
  intros [Hne Hw]. revert sp. induction w as [|c w IH]; intros sp;
    [now elim Hne |].
  cbn in Hw. apply andb_true_iff in Hw. destruct Hw as [Hc Hw].
  apply negb_true_iff in Hc. cbn [append tidy_from]. rewrite Hc.
  destruct w as [|c' w]; [reflexivity |].
  apply IH; [discriminate | exact Hw].
Qed.

Lemma tidy_join (ws : list string) :
  Forall word ws -> ws <> [] -> tidy_from true (Str.join " " ws) = true.
Proof.
  induction 1 as [|w ws Hw Hws IH]; intros Hne; [now elim Hne |].
  destruct ws as [|w' ws].
  - cbn [Str.join]. rewrite <- (append_nil_r w).
    now rewrite tidy_from_word.
  - change (Str.join " " (w :: w' :: ws))
      with (w ++ String " " (Str.join " " (w' :: ws)))%string.
    rewrite tidy_from_word by exact Hw. cbn [tidy_from].
    change (Str.is_space " ") with true. cbn.
    apply IH. discriminate.
Qed.

Lemma normalize_ws_tidy (s : string) : tidy (Str.normalize_ws s) = true.
Proof.
  unfold tidy, Str.normalize_ws.
  destruct (Str.split_ws s) as [|w ws] eqn:E; [reflexivity |].
  rewrite tidy_join; [apply orb_true_r | | discriminate].
  rewrite <- E. apply split_ws_words.
Qed.

Lemma tidy_from_rstrip (s : string) (sp : bool) :
  tidy_from sp s = true -> Str.rstrip s = s.
Proof.
  revert sp. induction s as [|c s IH]; intros sp; [reflexivity |].
  cbn [tidy_from Str.rstrip].
  destruct (Str.is_space c) eqn:Hc.
  - rewrite !andb_true_iff. intros [_ H].
    rewrite (IH true H). destruct s; [discriminate | reflexivity].
  - intros H. now rewrite (IH false H).
Qed.

Lemma tidy_from_true_head (s : string) :
  tidy_from true s = true -> s <> EmptyString /\ Str.lstrip s = s.
Proof.
  destruct s as [|c s]; cbn; [discriminate |].
  destruct (Str.is_space c); [discriminate |].
  intros _. split; [discriminate | reflexivity].
Qed.

Lemma tidy_strip (s : string) : tidy s = true -> Str.strip s = s.
Proof.
  unfold tidy. destruct s as [|c s]; [reflexivity |]. cbn [Str.is_empty orb].
  intros H. unfold Str.strip.
  rewrite (proj2 (tidy_from_true_head _ H)).
  now apply (tidy_from_rstrip _ true).
Qed.

Lemma tidy_from_before_space (a r : string) (sp : bool) :
  tidy_from sp (a ++ String " " r) = true ->
  tidy_from sp a = true /\ tidy_from true r = true.
Proof.
  revert sp. induction a as [|c a IH]; intros sp; cbn [append tidy_from].
  - change (Str.is_space " ") with true.
    rewrite !andb_true_iff. intros [[H _] Hr]. now split.
  - destruct (Str.is_space c).
    + rewrite !andb_true_iff. intros [[H1 H2] H].
      destruct (IH true H) as [Ha Hr]. now repeat split.
    + apply IH.
Qed.

(** Characters are only removed or, for whitespace, replaced by a
    space. *)
Lemma sub_from_all_of (icase : bool) (pat : pattern) (p : ascii -> bool)
  (s : string) (skip : nat) :
  all_of p s = true -> all_of p (sub_from icase pat s skip) = true.
Proof.
  revert skip. induction s as [|c s IH]; intros skip; [reflexivity |].
  cbn [all_of sub_from]. rewrite andb_true_iff. intros [Hc Hs].
  destruct skip as [|k]; [| now apply IH].
  destruct (match_len icase pat (String c s)) as [[|n]|];
    cbn [all_of]; rewrite ?Hc; cbn [andb]; now apply IH.
Qed.

Lemma fold_sub_all_of (ps : list pattern) (p : ascii -> bool) (s : string) :
  all_of p s = true ->
  all_of p (fold_left (fun t q => re_sub true q t) ps s) = true.
Proof.
  revert s. induction ps as [|q ps IH]; intros s H; [exact H |].
  cbn [fold_left]. apply IH. now apply sub_from_all_of.
Qed.

Lemma join_all_of (p : ascii -> bool) (ws : list string) :
  p " "%char = true -> Forall (fun w => all_of p w = true) ws ->
  all_of p (Str.join " " ws) = true.
Proof.
  intros Hsp. induction 1 as [|w ws Hw Hws IH]; [reflexivity |].
  destruct ws as [|w' ws]; [exact Hw |].
  change (Str.join " " (w :: w' :: ws))
    with (w ++ String " " (Str.join " " (w' :: ws)))%string.
  rewrite all_of_append, Hw. cbn [all_of andb]. now rewrite Hsp, IH.
Qed.

Lemma split_ws_all_of (p : ascii -> bool) (s : string) :
  all_of p s = true -> Forall (fun w => all_of p w = true) (Str.split_ws s).
Proof.
  induction s as [|c s IH]; [constructor |].
  cbn [all_of Str.split_ws]. rewrite andb_true_iff. intros [Hc Hs].
  specialize (IH Hs).
  destruct (Str.is_space c); [exact IH |].
  destruct (Str.starts_word s).
  - destruct (Str.split_ws s) as [|w ws].
    + constructor; [cbn; now rewrite Hc | constructor].
    + inversion IH; subst. constructor; [| assumption].
      cbn. now rewrite Hc.
  - constructor; [cbn; now rewrite Hc | exact IH].
Qed.

Lemma normalize_ws_all_of (p : ascii -> bool) (s : string) :
  p " "%char = true -> all_of p s = true ->
  all_of p (Str.normalize_ws s) = true.
Proof.
  intros Hsp H. unfold Str.normalize_ws.
  apply join_all_of; [exact Hsp | now apply split_ws_all_of].
Qed.

Lemma sub_from_past_end (icase : bool) (pat : pattern) (s : string)
  (skip : nat) :
  (String.length s <= skip)%nat -> sub_from icase pat s skip = EmptyString.
Proof.
  revert skip. induction s as [|c s IH]; intros skip H; [reflexivity |].
  cbn in *. destruct skip as [|k]; [lia |]. apply IH. lia.
Qed.

Lemma at_end_no_newline (s : string) :
  no_newline s = true -> at_end s = true -> s = EmptyString.
Proof.
  destruct s as [|c [|c' s]]; cbn; try discriminate; [reflexivity |].
  unfold no_newline. cbn. intros H1 H2. rewrite H2 in H1. discriminate.
Qed.

Lemma no_newline_append (a b : string) :
  no_newline (a ++ b) = true -> no_newline a = true /\ no_newline b = true.
Proof.
  unfold no_newline. rewrite all_of_append. apply andb_true_iff.
Qed.

(** On one line, a match of the pipe pattern runs to the end. *)
Lemma pipe_match_to_end (s : string) (n : nat) :
  no_newline s = true ->
  match_len false pipe_suffix s = Some n -> n = String.length s.
Proof.
  intros Hn. unfold match_len, pipe_suffix.
  destruct (match_here false [Star Space; One (Chr "|"); Star Dot; Eos]
              s 0 0 []) as [[e gs]|] eqn:H; [| discriminate].
  intros E; inversion E; subst e. clear E.
  apply match_star_inv in H. destruct H as [d1 [s1 [-> [_ H]]]].
  apply match_one_inv in H. destruct H as [c [s2 [-> [_ H]]]].
  apply match_star_inv in H. destruct H as [d2 [s3 [-> [_ H]]]].
  cbn [match_here] in H.
  destruct (at_end s3) eqn:He; [| discriminate].
  inversion H; subst.
  apply no_newline_append in Hn. destruct Hn as [_ Hn].
  unfold no_newline in Hn. cbn [all_of] in Hn.
  apply andb_true_iff in Hn. destruct Hn as [_ Hn].
  apply (no_newline_append d2 s3) in Hn. destruct Hn as [_ Hn].
  rewrite (at_end_no_newline s3 Hn He).
  rewrite !length_append. cbn. rewrite length_append. cbn. lia.
Qed.

(** On one line, the pipe pattern matches at a pipe. *)
Lemma pipe_match_at_pipe (s : string) :
  no_newline s = true ->
  match_len false pipe_suffix (String "|" s) <> None.
Proof.
  intros Hn. unfold match_len, pipe_suffix.
  rewrite (match_star_run false Space _ EmptyString (String "|" s) 0 0 []
             (1 + String.length s, [])%nat); [discriminate | | |].
  - reflexivity.
  - reflexivity.
  - cbn [String.length Nat.add]. rewrite match_one_run by reflexivity.
    rewrite <- (append_nil_r s) at 1.
    apply match_star_run; [exact Hn | exact I |].
    reflexivity.
Qed.

Lemma sub_pipe_no_pipe (s : string) :
  no_newline s = true -> no_pipe (re_sub false pipe_suffix s) = true.
Proof.
  unfold re_sub, no_pipe. induction s as [|c s IH]; intros Hn;
    [reflexivity |].
  assert (Hs : no_newline s = true).
  { unfold no_newline in *. cbn in Hn. now apply andb_true_iff in Hn. }
  cbn [sub_from].
  destruct (match_len false pipe_suffix (String c s)) as [n|] eqn:E.
  - pose proof (pipe_match_to_end _ _ Hn E) as Hlen. cbn in Hlen. subst n.
    rewrite sub_from_past_end by lia. reflexivity.
  - cbn [all_of]. rewrite (IH Hs), andb_true_r.
    apply negb_true_iff, Ascii.eqb_neq. intros ->.
    now apply (pipe_match_at_pipe s Hs).
Qed.

Lemma clean_title_length (x : string) :
  (String.length (clean_title x) <= String.length x)%nat.
Proof.
  unfold clean_title.
  pose proof (sub_length true youtube_suffix x) as H1.
  pose proof (sub_length false pipe_suffix
                (re_sub true youtube_suffix x)) as H2.
  pose proof (fold_sub_length patterns
                (re_sub false pipe_suffix
                   (re_sub true youtube_suffix x))) as H3.
  pose proof (normalize_ws_length
                (fold_left (fun t p => re_sub true p t) patterns
                   (re_sub false pipe_suffix
                      (re_sub true youtube_suffix x)))) as H4.
  lia.
Qed.

Lemma clean_title_tidy (x : string) : tidy (clean_title x) = true.
Proof. unfold clean_title. apply normalize_ws_tidy. Qed.

(** X3. Cleaning never lengthens a title, and it leaves a title as it is
    exactly when none of the removal patterns finds anything in it and
    its whitespace is already normal. *)
Theorem clean_title_shrinks (x : string) :
  (String.length (clean_title x) <= String.length x)%nat /\
  (clean_title x = x <->
   still_matches x = false /\ Str.normalize_ws x = x).
Proof.
  split; [apply clean_title_length |]. split.
  - intros E. destruct (still_matches x) eqn:H.
    + apply clean_title_shortens in H. rewrite E in H. lia.
    + split; [reflexivity |]. now rewrite <- (clean_title_no_match x H).
  - intros [H E]. now rewrite (clean_title_no_match x H).
Qed.

Lemma double_space_prefix (c : ascii) (s : string) :
  prefix "  " (String c s) = true ->
  c = " "%char /\ exists s', s = String " " s'.
Proof.
  cbn [prefix]. destruct (ascii_dec " " c) as [<-|]; [| discriminate].
  destruct s as [|c' s]; [discriminate |]. cbn [prefix].
  destruct (ascii_dec " " c') as [<-|]; [| discriminate].
  intros _. split; [reflexivity | now exists s].
Qed.

Lemma tidy_from_one_line (s : string) (sp : bool) :
  tidy_from sp s = true ->
  no_newline s = true /\ Str.split_once "  " s = None.
Proof.
  revert sp. induction s as [|c s IH]; intros sp H; [now split |].
  assert (Hrest : exists sp', tidy_from sp' s = true /\
                    (Str.is_space c = true -> c = " "%char /\ sp' = true)).
  { cbn [tidy_from] in H. destruct (Str.is_space c).
    - apply andb_true_iff in H. destruct H as [H Hs].
      apply andb_true_iff in H. destruct H as [_ Hsp].
      apply Ascii.eqb_eq in Hsp. exists true. now repeat split.
    - exists false. split; [exact H | discriminate]. }
  destruct Hrest as [sp' [Hs Hc]].
  destruct (IH sp' Hs) as [Hn Hd]. split.
  - unfold no_newline in *. cbn [all_of]. rewrite Hn, andb_true_r.
    apply negb_true_iff, Ascii.eqb_neq. intros ->.
    destruct (Hc eq_refl) as [E _]. cbv in E. discriminate.
  - cbn [Str.split_once]. rewrite Hd.
    destruct (prefix "  " (String c s)) eqn:Hp; [| reflexivity].
    exfalso. apply double_space_prefix in Hp.
    destruct Hp as [-> [s' ->]].
    destruct (Hc eq_refl) as [_ ->]. cbn in Hs. discriminate.
Qed.

(** X4. A cleaned title is tidy: it neither begins nor ends with
    whitespace, its only whitespace characters are single spaces, it is
    on one line, and trimming it changes nothing. *)
Theorem clean_title_is_tidy (x : string) :
  tidy (clean_title x) = true /\
  Str.strip (clean_title x) = clean_title x /\
  no_newline (clean_title x) = true /\
  Str.contains "  " (clean_title x) = false.
Proof.
  pose proof (clean_title_tidy x) as Ht.
  split; [exact Ht |]. split; [now apply tidy_strip |].
  generalize dependent (clean_title x). intros y Ht. unfold tidy in Ht.
  destruct y as [|c y]; [now split |]. cbn [Str.is_empty orb] in Ht.
  destruct (tidy_from_one_line _ _ Ht) as [Hn Hd].
  split; [exact Hn |]. unfold Str.contains. now rewrite Hd.
Qed.

(** X5. On a title of one line nothing from the first pipe on survives:
    the cleaned title has no pipe. *)
Theorem clean_title_drops_pipe (x : string) :
  no_newline x = true -> no_pipe (clean_title x) = true.
Proof.
  intros Hn. unfold clean_title, no_pipe.
  apply normalize_ws_all_of; [reflexivity |].
  apply fold_sub_all_of. apply sub_pipe_no_pipe.
  now apply sub_from_all_of.
Qed.

Lemma clean_title_drops_pipe_witness :
  no_newline "Song | Artist (Live) | Channel" = true /\
  no_pipe (clean_title "Song | Artist (Live) | Channel") = true.
Proof.
  split; [reflexivity |].
  exact (clean_title_drops_pipe "Song | Artist (Live) | Channel" eq_refl).
Defined.

(** ** Artist and song *)

Definition no_quote (s : string) : bool :=
  all_of (fun c => negb (Ascii.eqb c "'")) s.

(** ['g' rest]: a quoted part that is not empty and holds no quote, one
    space, and a rest that is not empty. *)
Definition quoted_shape (x g rest : string) : Prop :=
  x = ("'" ++ g ++ "' " ++ rest)%string /\
  g <> EmptyString /\ no_quote g = true /\ rest <> EmptyString.

Lemma prefix_drop (sep s : string) :
  prefix sep s = true -> s = (sep ++ Str.drop (String.length sep) s)%string.
Proof.
  revert s. induction sep as [|c sep IH]; intros s; [reflexivity |].
  destruct s as [|c' s]; cbn [prefix]; [discriminate |].
  destruct (ascii_dec c c') as [<-|]; [| discriminate].
  intros H. cbn. now rewrite <- (IH s H).
Qed.

Lemma prefix_append_r (p x y : string) :
  prefix p x = true -> prefix p (x ++ y) = true.
Proof.
  revert x. induction p as [|c p IH]; intros x; [now destruct x, y |].
  destruct x as [|c' x]; cbn [prefix append]; [discriminate |].
  destruct (ascii_dec c c'); [apply IH | discriminate].
Qed.

Lemma split_once_parts (sep s a b : string) :
  Str.split_once sep s = Some (a, b) -> s = (a ++ sep ++ b)%string.
Proof.
  revert a b. induction s as [|c s IH]; intros a b; cbn [Str.split_once].
  - destruct (prefix sep EmptyString) eqn:Hp; [| discriminate].
    intros E; inversion E; subst. now apply prefix_drop.
  - destruct (prefix sep (String c s)) eqn:Hp.
    + intros E; inversion E; subst. now apply prefix_drop.
    + destruct (Str.split_once sep s) as [[a' b']|]; [| discriminate].
      intros E; inversion E; subst. cbn. now rewrite <- (IH a' b).
Qed.

Lemma split_once_first (sep s a b : string) :
  sep <> EmptyString ->
  Str.split_once sep s = Some (a, b) -> Str.split_once sep a = None.
Proof.
  intros Hsep. revert a b.
  induction s as [|c s IH]; intros a b; cbn [Str.split_once].
  - destruct sep; [now elim Hsep | discriminate].
  - destruct (prefix sep (String c s)) eqn:Hp.
    + intros E; inversion E; subst. destruct sep; [now elim Hsep |].
      reflexivity.
    + destruct (Str.split_once sep s) as [[a' b']|] eqn:Hs;
        [| discriminate].
      intros E; inversion E; subst. cbn [Str.split_once].
      rewrite (IH a' b eq_refl).
      destruct (prefix sep (String c a')) eqn:Hp'; [| reflexivity].
      apply split_once_parts in Hs. subst s.
      apply (prefix_append_r _ _ (sep ++ b)) in Hp'.
      change (String c a' ++ sep ++ b)%string
        with (String c (a' ++ sep ++ b)) in Hp'.
      congruence.
Qed.

Lemma tidy_nonempty (x : string) :
  tidy x = true -> x <> EmptyString -> tidy_from true x = true.
Proof. unfold tidy. destruct x; [now intros _ H | now intros H _]. Qed.

Lemma tidy_from_true_strip (s : string) :
  tidy_from true s = true -> s <> EmptyString /\ Str.strip s = s.
Proof.
  intros H. destruct (tidy_from_true_head s H) as [Hne Hl].
  split; [exact Hne |]. unfold Str.strip. rewrite Hl.
  now apply (tidy_from_rstrip s true).
Qed.

(** X6. When the cleaned title holds " - ", [parse_song] splits it at
    the first one: the cleaned title reads artist, " - ", song; neither
    part is empty; and the artist holds no " - ". *)
Theorem parse_song_separator (title : string) :
  Str.contains " - " (clean_title title) = true ->
  exists artist song : string,
    parse_song title = (artist, song, clean_title title) /\
    clean_title title = (artist ++ " - " ++ song)%string /\
    artist <> EmptyString /\ song <> EmptyString /\
    Str.contains " - " artist = false.
Proof.
  unfold parse_song, Str.contains.
  pose proof (clean_title_tidy title) as Ht.
  destruct (Str.split_once " - " (clean_title title)) as [[a b]|] eqn:Hs;
    [| discriminate].
  intros _.
  pose proof (split_once_parts _ _ _ _ Hs) as E.
  assert (Hne : clean_title title <> EmptyString)
    by (rewrite E; destruct a; discriminate).
  pose proof (tidy_nonempty _ Ht Hne) as Hf. rewrite E in Hf.
  change (a ++ " - " ++ b)%string
    with (a ++ String " " (String "-" (String " " b)))%string in Hf.
  apply tidy_from_before_space in Hf. destruct Hf as [Ha Hb].
  cbn in Hb.
  destruct (tidy_from_true_strip a Ha) as [Ha0 Hsa].
  destruct (tidy_from_true_strip b Hb) as [Hb0 Hsb].
  exists a, b. rewrite Hsa, Hsb.
  repeat split; try assumption.
  rewrite (split_once_first " - " (clean_title title) a b);
    [reflexivity | discriminate | exact Hs].
Qed.

Lemma parse_song_separator_witness :
  exists artist song : string,
    parse_song "Rick Astley - Never Gonna Give You Up (Official Video)"
      = (artist, song,
         clean_title "Rick Astley - Never Gonna Give You Up (Official Video)")
    /\ clean_title "Rick Astley - Never Gonna Give You Up (Official Video)"
       = (artist ++ " - " ++ song)%string
    /\ artist <> EmptyString /\ song <> EmptyString
    /\ Str.contains " - " artist = false.
Proof.
  apply parse_song_separator. reflexivity.
Defined.

Lemma quoted_spans (g rest : string) :
  g <> EmptyString -> no_quote g = true ->
  rest <> EmptyString -> no_newline rest = true ->
  stops false Space rest ->
  match_here false quoted_title ("'" ++ g ++ "' " ++ rest) 0 0 [] =
    Some ((S (1 + String.length g) + 1 + String.length rest)%nat,
          [(1%nat, (1 + String.length g)%nat);
           ((S (1 + String.length g) + 1)%nat,
            (S (1 + String.length g) + 1 + String.length rest)%nat)]).
Proof.
  intros Hg0 Hg Hr0 Hr Hstop. unfold quoted_title.
  change ("'" ++ g ++ "' " ++ rest)%string
    with (String "'" (g ++ String "'" (" " ++ rest))).
  rewrite match_one_run, match_open by reflexivity.
  apply match_plus_run; [exact Hg0 | exact Hg | reflexivity |].
  rewrite match_close, match_one_run by reflexivity.
  apply match_plus_run; [discriminate | reflexivity | exact Hstop |].
  rewrite match_open.
  rewrite <- (append_nil_r rest) at 1.
  apply match_plus_run; [exact Hr0 | exact Hr | exact I |].
  reflexivity.
Qed.

Lemma quoted_match (g rest : string) :
  g <> EmptyString -> no_quote g = true ->
  rest <> EmptyString -> no_newline rest = true ->
  stops false Space rest ->
  re_match false quoted_title ("'" ++ g ++ "' " ++ rest) = Some [g; rest].
Proof.
  intros Hg0 Hg Hr0 Hr Hstop. unfold re_match.
  rewrite (quoted_spans g rest Hg0 Hg Hr0 Hr Hstop).
  cbn [map fst snd]. f_equal. f_equal; [| f_equal].
  - apply (substring_span "'" g); reflexivity.
  - replace ("'" ++ g ++ "' " ++ rest)%string
      with (("'" ++ g ++ "' ") ++ rest ++ "")%string
      by (now rewrite !append_assoc, append_nil_r).
    apply substring_span; [| reflexivity].
    cbn. rewrite length_append. cbn. lia.
Qed.

Lemma tidy_from_single_space (p d q : string) (sp : bool) :
  tidy_from sp (p ++ d ++ q) = true ->
  d <> EmptyString -> all_of Str.is_space d = true ->
  d = " " /\ tidy_from true q = true.
Proof.
  revert sp. induction p as [|c p IH]; intros sp H Hd0 Hd.
  - cbn [append] in H. destruct d as [|c d]; [now elim Hd0 |].
    cbn [all_of] in Hd. apply andb_true_iff in Hd. destruct Hd as [Hc Hd].
    cbn [append tidy_from] in H. rewrite Hc in H.
    apply andb_true_iff in H. destruct H as [H Hq].
    apply andb_true_iff in H. destruct H as [_ Hsp].
    apply Ascii.eqb_eq in Hsp. subst c.
    destruct d as [|c' d]; [now split |].
    cbn [all_of] in Hd. apply andb_true_iff in Hd. destruct Hd as [Hc' _].
    cbn [append tidy_from] in Hq. rewrite Hc' in Hq. discriminate.
  - cbn [append tidy_from] in H. destruct (Str.is_space c).
    + apply andb_true_iff in H. destruct H as [_ H]. now apply (IH true).
    + now apply (IH false).
Qed.

Lemma tidy_from_true_stops (q : string) :
  tidy_from true q = true -> stops false Space q.
Proof.
  destruct q as [|c q]; cbn; [discriminate |].
  destruct (Str.is_space c); [discriminate | reflexivity].
Qed.

Lemma quoted_inv (x : string) (r : nat * list (nat * nat)) :
  tidy x = true ->
  match_here false quoted_title x 0 0 [] = Some r ->
  exists g rest : string,
    quoted_shape x g rest /\ tidy_from true rest = true.
Proof.
  unfold quoted_title. intros Ht H.
  apply match_one_inv in H. destruct H as [c0 [x1 [-> [H0 H]]]].
  apply chr_match_eq in H0. subst c0.
  rewrite match_open in H.
  apply match_plus_inv in H. destruct H as [g [y1 [-> [Hg0 [Hg H]]]]].
  rewrite match_close in H.
  apply match_one_inv in H. destruct H as [c1 [x2 [-> [H1 H]]]].
  apply chr_match_eq in H1. subst c1.
  apply match_plus_inv in H. destruct H as [d [y2 [-> [Hd0 [Hd H]]]]].
  rewrite match_open in H.
  apply match_plus_inv in H. destruct H as [e [y3 [-> [He0 _]]]].
  cbn [tidy Str.is_empty orb] in Ht.
  replace (String "'" (g ++ String "'" (d ++ e ++ y3)))
    with ((String "'" (g ++ "'")) ++ d ++ (e ++ y3))%string in Ht
    by (cbn; now rewrite !append_assoc).
  destruct (tidy_from_single_space _ _ _ _ Ht Hd0 Hd) as [-> Hq].
  exists g, (e ++ y3)%string. split; [| exact Hq].
  unfold quoted_shape. repeat split.
  - exact Hg0.
  - exact Hg.
  - destruct e; [now elim He0 | discriminate].
Qed.

(** X7. With no " - " in the cleaned title, a cleaned title of the form
    ['g' rest] gives the rest as the artist and the trimmed quoted part
    as the song; any other cleaned title is the song as a whole, with
    an empty artist. *)
Theorem parse_song_quoted_or_plain (title : string) :
  Str.contains " - " (clean_title title) = false ->
  (forall g rest : string,
      quoted_shape (clean_title title) g rest ->
      parse_song title = (rest, Str.strip g, clean_title title)) /\
  ((forall g rest : string, ~ quoted_shape (clean_title title) g rest) ->
   parse_song title = (EmptyString, clean_title title, clean_title title)).
Proof.
  unfold parse_song, Str.contains.
  pose proof (clean_title_tidy title) as Ht.
  destruct (Str.split_once " - " (clean_title title)) as [[a b]|];
    [discriminate |].
  intros _. split.
  - intros g rest [E [Hg0 [Hg Hr0]]].
    assert (Hf : tidy_from true (clean_title title) = true)
      by (apply tidy_nonempty; [exact Ht | rewrite E; discriminate]).
    rewrite E in Hf |- *.
    replace ("'" ++ g ++ "' " ++ rest)%string
      with ((String "'" (g ++ "'")) ++ String " " rest)%string in Hf
      by (cbn; now rewrite !append_assoc).
    apply tidy_from_before_space in Hf. destruct Hf as [_ Hq].
    destruct (tidy_from_one_line _ _ Hq) as [Hn _].
    rewrite (quoted_match g rest Hg0 Hg Hr0 Hn (tidy_from_true_stops _ Hq)).
    now rewrite (proj2 (tidy_from_true_strip rest Hq)).
  - intros Hno. unfold re_match.
    destruct (match_here false quoted_title (clean_title title) 0 0 [])
      as [r|] eqn:H.
    + exfalso. destruct (quoted_inv _ _ Ht H) as [g [rest [Hs _]]].
      exact (Hno g rest Hs).
    + now rewrite (tidy_strip _ Ht).
Qed.

Lemma parse_song_quoted_or_plain_witness :
  parse_song "'Imagine' John Lennon [HQ]"
    = ("John Lennon", Str.strip "Imagine",
       clean_title "'Imagine' John Lennon [HQ]").
Proof.
  apply (proj1 (parse_song_quoted_or_plain "'Imagine' John Lennon [HQ]"
                  eq_refl) "Imagine" "John Lennon").
  repeat split; discriminate.
Defined.

(** ** Requests of the client *)

(** The most requests a strategy sends. *)
Definition cost (s : strategy) : nat :=
  match s with ExactMatch _ => 1 | SearchCall _ => 2 end.

Lemma attempt_cost (net : Net) (n : nat) (s : strategy) :
  (List.length (fst (attempt net n s)) <= cost s)%nat.
Proof.
  destruct s as [params | query]; cbn [attempt cost fst List.length];
    [lia |].
  destruct (first_candidate (net n (ApiSearch query))); cbn; lia.
Qed.

Lemma first_success_cost (net : Net) (ss : list strategy) (n : nat) :
  (List.length (fst (first_success net n ss))
   <= list_sum (map cost ss))%nat.
Proof.
  revert n. induction ss as [|s ss IH]; intros n; cbn [first_success];
    [cbn; lia |].
  pose proof (attempt_cost net n s) as Hs.
  destruct (attempt net n s) as [reqs [v|]]; cbn [fst] in *.
  - cbn [map]. change (list_sum (cost s :: map cost ss))
      with (cost s + list_sum (map cost ss))%nat. lia.
  - specialize (IH (n + List.length reqs)%nat).
    destruct (first_success net (n + List.length reqs) ss) as [more r].
    cbn [fst map] in *.
    change (list_sum (cost s :: map cost ss))
      with (cost s + list_sum (map cost ss))%nat.
    rewrite length_app. lia.
Qed.

Lemma strategy_order_cost (artist song : string) :
  (list_sum (map cost (strategy_order artist song)) <= 7)%nat /\
  (song = EmptyString ->
   (list_sum (map cost (strategy_order artist song)) <= 1)%nat) /\
  (artist = EmptyString -> song = EmptyString ->
   strategy_order artist song = []).
Proof.
  unfold strategy_order. destruct artist, song; cbn; repeat split;
    intros; try lia; try discriminate; reflexivity.
Qed.

Lemma answered_or_raises (net : Net) (n : nat) (artist song : string) :
  exact_answered net n artist song -> exact_raises net n artist song ->
  False.
Proof.
  intros [Hnil | [resp [Hn Hok]]] [Hne Hr]; [now elim Hne |].
  destruct Hr as [[e He] | [resp' [Hn' [Hst Hb]]]]; [congruence |].
  rewrite Hn in Hn'. inversion Hn'; subst resp'.
  destruct Hok as [Hok | [ms Hok]]; [now elim Hok | now elim (Hb ms)].
Qed.

(** X8. A call of [search_lrclib] only adds to the requests sent, and it
    adds at most seven: one exact lookup and three searches, each with
    at most one fetch by id. With an empty song it sends at most one
    request, and with an empty artist as well it sends none and finds
    nothing. *)
Theorem search_lrclib_request_bound (net : Net) (artist song : string)
  (log : list request) :
  exists (new : list request) (r : option json),
    search_lrclib net artist song log = (log ++ new, Ok r) /\
    (List.length new <= 7)%nat /\
    (song = EmptyString -> (List.length new <= 1)%nat) /\
    (artist = EmptyString -> song = EmptyString -> new = [] /\ r = None).
Proof.
  destruct (strategy_order_cost artist song) as [H7 [H1 H0]].
  destruct (search_lrclib_run net artist song log) as [[_ E] | [[Hne _] E]];
    rewrite E; eexists; eexists; (split; [reflexivity |]).
  - pose proof (first_success_cost net (strategy_order artist song)
                  (List.length log)) as Hc.
    split; [lia | split; [intros Hs; specialize (H1 Hs); lia |]].
    intros Ha Hs. rewrite (H0 Ha Hs). now split.
  - cbn [List.length]. split; [lia | split; [lia |]].
    intros -> ->. now elim Hne.
Qed.

(** X9. When the exact lookup raises (the HTTP layer raises, or the body
    of a response with status 200 cannot be decoded to a JSON object),
    the call ends there: that one request is all it sent, it finds
    nothing, and no search is tried. *)
Theorem search_lrclib_exact_raises (net : Net) (artist song : string)
  (log : list request) :
  exact_raises net (List.length log) artist song ->
  search_lrclib net artist song log =
    (log ++ [ApiGet (exact_params artist song)], Ok None).
Proof.
  intros Hr.
  destruct (search_lrclib_run net artist song log) as [[Ha _] | [_ E]];
    [| exact E].
  now elim (answered_or_raises _ _ _ _ Ha Hr).
Qed.

Lemma search_lrclib_exact_raises_witness :
  exact_raises (fun _ _ => Raise RequestException) 0 "Rick" "Roll" /\
  search_lrclib (fun _ _ => Raise RequestException) "Rick" "Roll" [] =
    ([ApiGet [("track_name", "Roll"); ("artist_name", "Rick")]], Ok None).
Proof.
  assert (H : exact_raises (fun _ _ => Raise RequestException) 0
                "Rick" "Roll").
  { split; [discriminate |]. left. now exists RequestException. }
  split; [exact H |].
  exact (search_lrclib_exact_raises _ "Rick" "Roll" [] H).
Defined.

(** ** More on the decoder *)

Lemma digit_val_nonneg (c : ascii) :
  Str.is_digit c = true -> (0 <= Str.digit_val c)%Z.
Proof.
  unfold Str.is_digit, Str.digit_val. cbv zeta.
  rewrite andb_true_iff, !N.leb_le. intros [H _]. lia.
Qed.

Lemma int_of_acc_nonneg (d : string) (acc : Z) :
  all_of Str.is_digit d = true -> (0 <= acc)%Z ->
  (0 <= Str.int_of_acc acc d)%Z.
Proof.
  revert acc. induction d as [|c d IH]; intros acc;
    cbn [Str.int_of_acc all_of]; [now intros _ |].
  rewrite andb_true_iff. intros [Hc Hd] Hacc.
  apply IH; [exact Hd |]. pose proof (digit_val_nonneg c Hc). lia.
Qed.

Lemma int_of_nonneg (d : string) : digits d -> (0 <= Str.int_of d)%Z.
Proof. intros [_ H]. apply int_of_acc_nonneg; [exact H | lia]. Qed.

Lemma total_sec_nonneg (m s c : Z) :
  (0 <= m)%Z -> (0 <= s)%Z -> (0 <= c)%Z -> 0 <= total_sec m s c.
Proof.
  intros Hm Hs Hc. unfold total_sec. rewrite Qred_correct.
  assert (H1 : 0 <= inject_Z (m * 60 + s))
    by (change 0 with (inject_Z 0); rewrite <- Zle_Qle; lia).
  assert (H2 : 0 <= inject_Z c)
    by (change 0 with (inject_Z 0); rewrite <- Zle_Qle; lia).
  assert (H3 : 0 <= inject_Z c / 100)
    by (apply Qle_shift_div_l; [reflexivity | lra]).
  lra.
Qed.

Lemma collect_in (lines : list string) (l : Lyric) :
  In l (collect lines) ->
  exists line, In line lines /\ parse_line line = Some l.
Proof.
  induction lines as [|line lines IH]; cbn; [now intros [] |].
  destruct (parse_line line) as [l'|] eqn:E.
  - intros [<- | H]; [exists line; now split; [left |] |].
    destruct (IH H) as [x [Hx Hp]]. exists x. split; [now right | exact Hp].
  - intros H. destruct (IH H) as [x [Hx Hp]].
    exists x. split; [now right | exact Hp].
Qed.

(** X10. Every line the decoder returns is a well-formed lyric line:
    its time is not negative, and its text is not empty, is trimmed and
    holds no newline. *)
Theorem parse_lrc_lines_valid (lrc_text : string) (l : Lyric) :
  In l (parse_lrc lrc_text) ->
  0 <= time l /\ text l <> EmptyString /\
  Str.strip (text l) = text l /\ no_newline (text l) = true.
Proof.
  unfold parse_lrc. intros H.
  apply (Permutation_in _ (sorted_perm _)) in H.
  apply collect_in in H. destruct H as [line [Hin Hp]].
  pose proof (split_on_no_sep lrc_text) as Hn.
  rewrite Forall_forall in Hn. specialize (Hn line Hin).
  destruct (parse_line_inv line l Hp) as [m [s [c [t [Hm [Hs [Hc E]]]]]]].
  rewrite (parse_line_stamped line m s c t Hn Hm Hs Hc E) in Hp.
  destruct (Str.truthy (Str.strip t)) eqn:Ht; [| discriminate].
  inversion Hp; subst l. cbn [time text entry].
  split; [| split; [| split]].
  - apply total_sec_nonneg; now apply int_of_nonneg.
  - now apply truthy_iff.
  - apply strip_idem.
  - apply strip_no_newline. apply (no_newline_stamped m s c).
    rewrite <- E. now apply strip_no_newline.
Qed.

Lemma parse_lrc_lines_valid_witness :
  let l := {| time := Qred 5.0; text := "World" |} in
  In l (parse_lrc "[00:05.00]  World  ") /\ 0 <= time l /\
  text l <> EmptyString.
Proof.
  cbv zeta.
  assert (H : In {| time := Qred 5.0; text := "World" |}
                (parse_lrc "[00:05.00]  World  ")) by (left; reflexivity).
  split; [exact H |].
  destruct (parse_lrc_lines_valid _ _ H) as [H1 [H2 _]]. now split.
Defined.

(** *** A stable sort has one result *)

Lemma at_time_app (q : Q) (l1 l2 : list Lyric) :
  at_time q (l1 ++ l2) = at_time q l1 ++ at_time q l2.
Proof. apply filter_app. Qed.

Lemma sorted_head_least (x : Lyric) (l : list Lyric) (y : Lyric) :
  StronglySorted by_time (x :: l) -> In y (x :: l) -> time x <= time y.
Proof.
  intros Hs [<- | Hin]; [lra |].
  inversion Hs as [|? ? _ Hall]; subst.
  rewrite Forall_forall in Hall. exact (Hall y Hin).
Qed.

Lemma stable_sorted_unique (l l' : list Lyric) :
  Permutation l l' ->
  StronglySorted by_time l -> StronglySorted by_time l' ->
  (forall q, at_time q l = at_time q l') ->
  l = l'.
Proof.
  revert l'. induction l as [|x l IH]; intros l' Hp Hs Hs' Hq.
  - apply Permutation_nil in Hp. now subst.
  - destruct l' as [|y l'];
      [apply Permutation_sym, Permutation_nil in Hp; discriminate |].
    assert (Hxy : time x == time y).
    { assert (H1 : time x <= time y).
      { apply (sorted_head_least x l y Hs).
        apply (Permutation_in _ (Permutation_sym Hp)). now left. }
      assert (H2 : time y <= time x).
      { apply (sorted_head_least y l' x Hs').
        apply (Permutation_in _ Hp). now left. }
      lra. }
    pose proof (Hq (time x)) as Hx. unfold at_time in Hx. cbn [filter] in Hx.
    assert (Ex : Qeq_bool (time x) (time x) = true)
      by (apply Qeq_bool_iff; reflexivity).
    assert (Ey : Qeq_bool (time y) (time x) = true)
      by (apply Qeq_bool_iff; now symmetry).
    rewrite Ex, Ey in Hx. injection Hx as Hxy' _. subst y.
    f_equal. apply IH.
    + now apply Permutation_cons_inv in Hp.
    + now inversion Hs.
    + now inversion Hs'.
    + intros q. specialize (Hq q). unfold at_time in *. cbn [filter] in Hq.
      destruct (Qeq_bool (time x) q); [now injection Hq | exact Hq].
Qed.


Lemma split_on_nonempty (sep : ascii) (s : string) :
  Str.split_on sep s <> [].
Proof.
  destruct s as [|c s]; cbn; [discriminate |].
  destruct (Ascii.eqb c sep); [discriminate |].
  destruct (Str.split_on sep s); discriminate.
Qed.

Lemma split_on_append (a b : string) :
  Str.split_on newline (a ++ String newline b) =
    Str.split_on newline a ++ Str.split_on newline b.
Proof.
  induction a as [|c a IH]; cbn [append Str.split_on].
  - now rewrite Ascii.eqb_refl.
  - destruct (Ascii.eqb c newline); [now rewrite IH |].
    rewrite IH. pose proof (split_on_nonempty newline a) as Hne.
    destruct (Str.split_on newline a) as [|w ws]; [now elim Hne |].
    reflexivity.
Qed.

Lemma collect_app (l1 l2 : list string) :
  collect (l1 ++ l2) = collect l1 ++ collect l2.
Proof.
  induction l1 as [|x l1 IH]; cbn; [reflexivity |].
  destruct (parse_line x); cbn; now rewrite IH.
Qed.

(** X11. Decoding two texts joined by a newline is the stable merge of
    their decodings: the same lines as the two results together, sorted
    by time, those of the first text before those of the second at
    equal times. *)
Theorem parse_lrc_append (a b : string) :
  parse_lrc (a ++ String newline b) = sorted (parse_lrc a ++ parse_lrc b) /\
  Permutation (parse_lrc (a ++ String newline b))
    (parse_lrc a ++ parse_lrc b) /\
  (forall q : Q,
      at_time q (parse_lrc (a ++ String newline b)) =
        at_time q (parse_lrc a) ++ at_time q (parse_lrc b)).
Proof.
  unfold parse_lrc. rewrite split_on_append, collect_app.
  set (la := collect (Str.split_on newline a)).
  set (lb := collect (Str.split_on newline b)).
  assert (Hq : forall q, at_time q (sorted (la ++ lb)) =
                         at_time q (sorted la) ++ at_time q (sorted lb)).
  { intros q. now rewrite !sorted_stable, at_time_app. }
  assert (Hp : Permutation (sorted (la ++ lb)) (sorted la ++ sorted lb)).
  { rewrite sorted_perm. apply Permutation_app; symmetry; apply sorted_perm. }
  split; [| split; [exact Hp | exact Hq]].
  apply stable_sorted_unique.
  - rewrite Hp. symmetry. apply sorted_perm.
  - apply sorted_sorted.
  - apply sorted_sorted.
  - intros q. rewrite Hq.
    rewrite (sorted_stable q (sorted la ++ sorted lb)).
    now rewrite at_time_app.
Qed.



(** ** More on the current line *)

Lemma currentIndex_last_reached (ls : list Lyric) (elapsed : Q) :
  ls <> [] ->
  currentIndex ls elapsed =
    Some match last_reached ls elapsed with
         | Some j => j
         | None => 0%nat
         end.
Proof.
  intros Hne. destruct ls as [|l0 rest]; [now elim Hne |].
  unfold currentIndex. rewrite scan_last_reached.
  destruct (last_reached (l0 :: rest) elapsed) as [j|] eqn:Hr;
    [| reflexivity].
  destruct (last_reached_some _ _ _ Hr) as [[lj [Hj _]] _].
  assert (Hlt : (j < List.length (l0 :: rest))%nat)
    by (apply nth_error_Some; congruence).
  apply Nat.ltb_lt in Hlt. cbn [Nat.add]. now rewrite Hlt.
Qed.

(** X13. Once lyrics are loaded a line is always shown: the index is
    within the list; and the index never goes back as time goes on. *)
Theorem currentIndex_monotone (ls : list Lyric) (e1 e2 : Q) :
  ls <> [] -> e1 <= e2 ->
  exists i1 i2 : nat,
    currentIndex ls e1 = Some i1 /\ currentIndex ls e2 = Some i2 /\
    (i1 <= i2)%nat /\ (i2 < List.length ls)%nat.
Proof.
  intros Hne Hle.
  rewrite !(currentIndex_last_reached ls) by exact Hne.
  eexists; eexists. split; [reflexivity | split; [reflexivity |]].
  assert (Hlen : (0 < List.length ls)%nat)
    by (destruct ls; [now elim Hne | cbn; lia]).
  destruct (last_reached ls e2) as [j2|] eqn:H2.
  - destruct (last_reached_some _ _ _ H2) as [[l2 [Hj2 _]] Hmax].
    assert (Hlt : (j2 < List.length ls)%nat)
      by (apply nth_error_Some; congruence).
    split; [| exact Hlt].
    destruct (last_reached ls e1) as [j1|] eqn:H1; [| lia].
    destruct (last_reached_some _ _ _ H1) as [[l1 [Hj1 Ht1]] _].
    apply (Hmax j1 l1 Hj1). lra.
  - split; [| exact Hlen].
    destruct (last_reached ls e1) as [j1|] eqn:H1; [| lia].
    destruct (last_reached_some _ _ _ H1) as [[l1 [Hj1 Ht1]] _].
    apply nth_error_In in Hj1.
    pose proof (proj1 (last_reached_none ls e2) H2 l1 Hj1). lra.
Qed.

Lemma currentIndex_monotone_witness :
  let ls := [ {| time := 5; text := "World" |};
              {| time := 25 # 2; text := "Hello" |} ] in
  exists i1 i2 : nat,
    currentIndex ls 6 = Some i1 /\ currentIndex ls 13 = Some i2 /\
    (i1 <= i2)%nat /\ (i2 < List.length ls)%nat.
Proof.
  cbv zeta. apply currentIndex_monotone; [discriminate | lra].
Defined.

Lemma nth_error_middle (pre : list Lyric) (a : Lyric) (post : list Lyric) :
  nth_error (pre ++ a :: post) (List.length pre) = Some a.
Proof. induction pre as [|x pre IH]; [reflexivity | exact IH]. Qed.

Lemma last_reached_between (pre post : list Lyric) (a : Lyric)
  (elapsed : Q) :
  Sorted by_time (pre ++ a :: post) ->
  time a <= elapsed ->
  (forall b, In b post -> elapsed < time b) ->
  last_reached (pre ++ a :: post) elapsed = Some (List.length pre).
Proof.
  intros Hs Ha Hpost. set (ls := pre ++ a :: post) in *.
  pose proof (nth_error_middle pre a post) as Hmid. fold ls in Hmid.
  destruct (last_reached ls elapsed) as [j|] eqn:Hr.
  - destruct (last_reached_some _ _ _ Hr) as [[lj [Hj Hlj]] Hmax].
    pose proof (Hmax _ _ Hmid Ha) as Hge.
    destruct (Nat.eq_dec j (List.length pre)) as [->|Hne]; [reflexivity |].
    exfalso. assert (Hin : In lj post).
    { unfold ls in Hj.
      rewrite nth_error_app2 in Hj by lia.
      destruct (j - List.length pre)%nat as [|k] eqn:Hk; [lia |].
      cbn in Hj. now apply nth_error_In in Hj. }
    specialize (Hpost lj Hin). lra.
  - pose proof (proj1 (last_reached_none ls elapsed) Hr a) as H.
    assert (Hin : In a ls) by (unfold ls; apply in_elt).
    specialize (H Hin). lra.
Qed.

Lemma sorted_after (pre post : list Lyric) (a b : Lyric) :
  Sorted by_time (pre ++ a :: b :: post) ->
  forall c, In c (b :: post) -> time b <= time c.
Proof.
  intros Hs c Hc.
  apply Sorted_StronglySorted in Hs; [| exact by_time_trans].
  induction pre as [|x pre IH]; cbn in Hs.
  - inversion Hs as [|? ? Hs' _]; subst.
    now apply (sorted_head_least b post c Hs').
  - inversion Hs; subst. now apply IH.
Qed.

(** X14. What the display shows for lyrics sorted by time. From the
    time of a line up to the time of the line after it, the current
    label shows that line in yellow and the next label the line after
    it; from the time of the last line on, the current label shows the
    last line and the next label is empty. Nothing else of the overlay
    changes, and with no lyrics the display is left alone. *)
Theorem update_display_between (now : Q) (st : State) :
  (lyrics st = [] -> update_display now st = st) /\
  (forall (pre post : list Lyric) (a b : Lyric),
      lyrics st = pre ++ a :: b :: post ->
      Sorted by_time (lyrics st) ->
      time a <= now - start_time st -> now - start_time st < time b ->
      update_display now st =
        set_next_label (text b) (set_current_label (text a, Yellow) st)) /\
  (forall (pre : list Lyric) (a : Lyric),
      lyrics st = pre ++ [a] ->
      Sorted by_time (lyrics st) ->
      time a <= now - start_time st ->
      update_display now st =
        set_next_label EmptyString
          (set_current_label (text a, Yellow) st)).
Proof.
  unfold update_display. split; [| split].
  - intros E. now rewrite E.
  - intros pre post a b E Hs Ha Hb. rewrite E in *.
    rewrite currentIndex_last_reached by (destruct pre; discriminate).
    rewrite (last_reached_between pre (b :: post) a); try assumption.
    + unfold line_text. rewrite nth_error_middle.
      replace (List.length pre + 1)%nat
        with (List.length (pre ++ [a])) by (rewrite length_app; reflexivity).
      replace (pre ++ a :: b :: post) with ((pre ++ [a]) ++ b :: post)
        by (now rewrite <- app_assoc).
      rewrite nth_error_middle.
      assert (Hlt : Nat.ltb (List.length (pre ++ [a]))
                      (List.length ((pre ++ [a]) ++ b :: post)) = true).
      { apply Nat.ltb_lt. rewrite (length_app (pre ++ [a])). cbn. lia. }
      now rewrite Hlt.
    + intros c Hc. pose proof (sorted_after pre post a b Hs c Hc). lra.
  - intros pre a E Hs Ha. rewrite E in *.
    rewrite currentIndex_last_reached by (destruct pre; discriminate).
    rewrite (last_reached_between pre [] a); try assumption;
      [| intros c []].
    unfold line_text. rewrite nth_error_middle.
    assert (Hlt : Nat.ltb (List.length pre + 1)
                    (List.length (pre ++ [a])) = false).
    { apply Nat.ltb_ge. rewrite length_app. cbn. lia. }
    now rewrite Hlt.
Qed.

Lemma update_display_between_witness :
  let st := set_start_time 100
              (set_lyrics [ {| time := 0; text := "Line one" |};
                            {| time := 3; text := "Line two" |} ] initial) in
  update_display 101 st =
    set_next_label "Line two" (set_current_label ("Line one", Yellow) st).
Proof.
  cbv zeta.
  apply (proj1 (proj2 (update_display_between 101 _)) []
           [] {| time := 0; text := "Line one" |}
           {| time := 3; text := "Line two" |}).
  - reflexivity.
  - repeat constructor. unfold by_time. cbn. lra.
  - cbn. lra.
  - cbn. lra.
Defined.

(** ** The loop of [update_loop] *)

(** What one turn of the loop is given from outside: the three readings
    of [time.time()] (in the two-second test, into [last_check], for the
    display), the window titles that [check_title_change] sees, and the
    environment of [load_song]. *)
Record Turn : Type := {
  tick_test : Q;
  tick_mark : Q;
  tick_show : Q;
  seen : option (list string);
  load : Env
}.

(** [self.check_title_change()] run from the loop. *)
Definition call_check (ws : option (list string)) : M World bool :=
  fun w =>
    let (st, changed) := check_title_change ws (self w) in
    ({| self := st; sent := sent w |}, Ok changed).

(** The [try] block of one turn; its value is [last_check] afterwards. *)
Definition turn_try (t : Turn) (last_check : Q) : M World Q :=
  (last_check' <-
     (if Qlt_bool 2 (tick_test t - last_check) then
        (changed <- call_check (seen t) ;;
         (if changed : bool
          then (_ <- load_song (load t) ;; ret tt)
          else ret tt) ;;;
         ret (tick_mark t))
      else ret last_check) ;;
   on_self (update_display (tick_show t)) ;;;
   ret last_check')%monad.

(** One turn of [while self.running]: the overlay, [last_check] and the
    seconds slept afterwards (0.2, or 1 after an exception). *)
Definition update_turn (t : Turn) (last_check : Q) (w : World)
  : World * Q * Q :=
  match turn_try t last_check w with
  | (w', Ok lc) => (w', lc, 1 # 5)
  | (w', Raise _) => (w', last_check, 1)
  end.

(** The loop over the turns it gets to make before [running] is
    cleared. *)
Fixpoint update_loop (turns : list Turn) (last_check : Q) (w : World)
  : World * Q :=
  match turns with
  | [] => (w, last_check)
  | t :: rest =>
      let '(w', lc, _) := update_turn t last_check w in
      update_loop rest lc w'
  end.

(** ** Frames *)

Lemma search_lrclib_new (net : Net) (artist song : string)
  (log log' : list request) (r : result (option json)) :
  search_lrclib net artist song log = (log', r) ->
  exists new : list request,
    log' = log ++ new /\ (List.length new <= 7)%nat.
Proof.
  destruct (strategy_order_cost artist song) as [H7 _].
  destruct (search_lrclib_run net artist song log) as [[_ E] | [_ E]];
    rewrite E; intros H; inversion H; subst; eexists;
    (split; [reflexivity |]).
  - pose proof (first_success_cost net (strategy_order artist song)
                  (List.length log)). lia.
  - cbn. lia.
Qed.

(** What [load_song] leaves alone, and how much it sends. *)
Lemma load_song_frame (env : Env) (w w' : World) (out : result bool) :
  load_song env w = (w', out) ->
  last_title (self w') = last_title (self w) /\
  running (self w') = running (self w) /\
  (is_loading (self w) = false -> is_loading (self w') = false) /\
  exists new : list (request * State),
    sent w' = sent w ++ new /\ (List.length new <= 7)%nat.
Proof.
  intros E. destruct (is_loading (self w)) eqn:Hl.
  - rewrite (load_song_reentrant env w Hl) in E. inversion E; subst.
    repeat split; try discriminate.
    exists []. split; [now rewrite app_nil_r | cbn; lia].
  - apply load_song_runs in E; [| exact Hl].
    destruct E as [Hs | yt artist song full reqs r mid fin out Hs Hp Hmid Hq Ho].
    + cbn. repeat split. exists []. split; [now rewrite app_nil_r | cbn; lia].
    + cbn [self sent].
      assert (Hfin : last_title fin = last_title (self w) /\
                     running fin = running (self w)).
      { inversion Ho; subst; now split. }
      destruct Hfin as [H1 H2].
      repeat split; try assumption.
      exists (map (fun q => (q, mid)) reqs). split; [reflexivity |].
      rewrite length_map.
      destruct (search_lrclib_new _ _ _ _ _ _ Hq) as [new [-> Hn]].
      exact Hn.
Qed.

Lemma check_title_change_frame (ws : option (list string)) (st : State) :
  exists lt : option string,
    fst (check_title_change ws st) = set_last_title lt st /\
    (lt = last_title st \/ (lt = sampled ws /\ is_loading st = false)).
Proof.
  assert (Hsame : set_last_title (last_title st) st = st)
    by (now destruct st).
  assert (Hkeep : fst (st, false) = set_last_title (last_title st) st)
    by (now rewrite Hsame).
  unfold check_title_change.
  destruct (is_loading st) eqn:Hl;
    [exists (last_title st); split; [exact Hkeep | now left] |].
  destruct (sampled ws) as [current|] eqn:Hs;
    [| exists (last_title st); split; [exact Hkeep | now left]].
  destruct (last_title st) as [last|] eqn:Ht.
  - destruct (String.eqb current last) eqn:Hraw; cbn [negb].
    + exists (Some last). split; [exact Hkeep | now left].
    + destruct (negb (String.eqb (clean_title last) (clean_title current)));
        exists (Some current); (split; [reflexivity | now right]).
  - exists (Some current). split; [reflexivity | now right].
Qed.

Lemma update_display_frame (now : Q) (st : State) :
  lyrics (update_display now st) = lyrics st /\
  start_time (update_display now st) = start_time st /\
  is_loading (update_display now st) = is_loading st /\
  last_title (update_display now st) = last_title st /\
  running (update_display now st) = running st /\
  current_song (update_display now st) = current_song st.
Proof.
  unfold update_display.
  destruct (currentIndex (lyrics st) (now - start_time st));
    repeat split; reflexivity.
Qed.

(** X15. [check_title_change] writes nothing but [last_title], and the
    first title it ever samples is only recorded: with no title observed
    yet it answers false. *)
Theorem check_title_change_first_sample (ws : option (list string))
  (st : State) :
  (exists lt : option string,
      fst (check_title_change ws st) = set_last_title lt st) /\
  (last_title st = None ->
   snd (check_title_change ws st) = false /\
   (is_loading st = false ->
    last_title (fst (check_title_change ws st)) = sampled ws)).
Proof.
  split.
  - destruct (check_title_change_frame ws st) as [lt [E _]]. now exists lt.
  - intros Ht. unfold check_title_change. rewrite Ht.
    destruct (is_loading st) eqn:Hl; [split; [reflexivity | discriminate] |].
    destruct (sampled ws) as [current|];
      (split; [reflexivity | intros _; cbn; congruence]).
Qed.

Lemma check_title_change_first_sample_witness :
  snd (check_title_change tab initial) = false /\
  last_title (fst (check_title_change tab initial)) = sampled tab.
Proof.
  destruct (proj2 (check_title_change_first_sample tab initial) eq_refl)
    as [H1 H2].
  split; [exact H1 | exact (H2 eq_refl)].
Defined.

(** X16. [load_song] never touches [last_title] or [running], sends at
    most seven requests, and without a window sends none: it returns
    false, leaves lyrics, start time and current song alone and shows
    "No YouTube window" in red. *)
Theorem load_song_footprint (env : Env) (w : World) :
  last_title (self (fst (load_song env w))) = last_title (self w) /\
  running (self (fst (load_song env w))) = running (self w) /\
  (exists new : list (request * State),
      sent (fst (load_song env w)) = sent w ++ new /\
      (List.length new <= 7)%nat) /\
  (is_loading (self w) = false -> sampled (windows env) = None ->
   snd (load_song env w) = Ok false /\
   sent (fst (load_song env w)) = sent w /\
   shared (self (fst (load_song env w))) = shared (self w) /\
   current_label (self (fst (load_song env w)))
     = ("No YouTube window", Red)).
Proof.
  destruct (load_song env w) as [w' out] eqn:E. cbn [fst snd].
  destruct (load_song_frame env w w' out E) as [H1 [H2 [_ H3]]].
  split; [exact H1 | split; [exact H2 | split; [exact H3 |]]].
  intros Hl Hs. apply load_song_runs in E; [| exact Hl].
  destruct E as [_ | yt artist song full reqs r mid fin out Hs' _ _ _ _].
  - repeat split.
  - congruence.
Qed.

Lemma load_song_footprint_witness :
  let env := {| windows := Some ["Inbox"]; net := net_search;
                clock := fun n => inject_Z (Z.of_nat n) |} in
  snd (load_song env fresh) = Ok false /\
  sent (fst (load_song env fresh)) = sent fresh.
Proof.
  cbv zeta.
  destruct (proj2 (proj2 (proj2 (load_song_footprint
              {| windows := Some ["Inbox"]; net := net_search;
                 clock := fun n => inject_Z (Z.of_nat n) |} fresh)))
              eq_refl eq_refl) as [H1 [H2 _]].
  split; [exact H1 | exact H2].
Defined.

(** ** Turns of the loop *)

Lemma check_title_change_tracks (ws : option (list string)) (st : State)
  (cur : string) :
  is_loading st = false -> sampled ws = Some cur ->
  last_title (fst (check_title_change ws st)) = Some cur /\
  is_loading (fst (check_title_change ws st)) = false /\
  running (fst (check_title_change ws st)) = running st /\
  shared (fst (check_title_change ws st)) = shared st.
Proof.
  intros Hl Hs. unfold check_title_change. rewrite Hl, Hs.
  destruct (last_title st) as [last|] eqn:Ht; [| now repeat split].
  destruct (String.eqb cur last) eqn:Hraw; cbn [negb].
  - apply String.eqb_eq in Hraw. subst last. now repeat split.
  - destruct (negb (String.eqb (clean_title last) (clean_title cur)));
      now repeat split.
Qed.

Lemma check_title_change_same (ws : option (list string)) (st : State)
  (cur : string) :
  sampled ws = Some cur -> last_title st = Some cur ->
  check_title_change ws st = (st, false).
Proof.
  intros Hs Ht. unfold check_title_change. rewrite Hs, Ht, String.eqb_refl.
  now destruct (is_loading st).
Qed.

(** What one turn may change. *)
Lemma update_turn_frame (t : Turn) (lc : Q) (w : World) :
  is_loading (self w) = false ->
  is_loading (self (fst (fst (update_turn t lc w)))) = false /\
  running (self (fst (fst (update_turn t lc w)))) = running (self w) /\
  (exists new : list (request * State),
      sent (fst (fst (update_turn t lc w))) = sent w ++ new /\
      (List.length new <= 7)%nat) /\
  (forall cur : string,
      Qlt_bool 2 (tick_test t - lc) = true ->
      sampled (seen t) = Some cur ->
      last_title (self (fst (fst (update_turn t lc w)))) = Some cur) /\
  (forall cur : string,
      sampled (seen t) = Some cur -> last_title (self w) = Some cur ->
      sent (fst (fst (update_turn t lc w))) = sent w /\
      shared (self (fst (fst (update_turn t lc w)))) = shared (self w) /\
      last_title (self (fst (fst (update_turn t lc w)))) = Some cur) /\
  (Qlt_bool 2 (tick_test t - lc) = false ->
   update_turn t lc w =
     ({| self := update_display (tick_show t) (self w); sent := sent w |},
      lc, 1 # 5)).
Proof.
  intros Hl.
  destruct (update_display_frame (tick_show t) (self w))
    as [D1 [D2 [D3 [D4 [D5 D6]]]]].
  assert (Hnil : exists new : list (request * State),
             sent w = sent w ++ new /\ (List.length new <= 7)%nat).
  { exists []. split; [now rewrite app_nil_r | cbn; lia]. }
  unfold update_turn, turn_try, bind, on_self, modify, ret.
  destruct (Qlt_bool 2 (tick_test t - lc)) eqn:Hdue.
  - unfold call_check.
    destruct (check_title_change (seen t) (self w)) as [st1 changed] eqn:Hc.
    assert (Hfr : is_loading st1 = false /\ running st1 = running (self w)
                  /\ shared st1 = shared (self w)).
    { pose proof (check_title_change_frame (seen t) (self w)) as [lt [E _]].
      rewrite Hc in E. cbn [fst] in E. subst st1. now repeat split. }
    destruct Hfr as [F1 [F2 F3]].
    assert (Htrack : forall cur, sampled (seen t) = Some cur ->
                                 last_title st1 = Some cur).
    { intros cur Hs.
      pose proof (check_title_change_tracks (seen t) (self w) cur Hl Hs)
        as [E _]. now rewrite Hc in E. }
    assert (Hsame : forall cur, sampled (seen t) = Some cur ->
                      last_title (self w) = Some cur ->
                      st1 = self w /\ changed = false).
    { intros cur Hs Ht.
      rewrite (check_title_change_same _ _ _ Hs Ht) in Hc.
      inversion Hc. now split. }
    destruct changed.
    + destruct (load_song (load t) {| self := st1; sent := sent w |})
        as [w2 out] eqn:El.
      destruct (load_song_frame _ _ _ _ El) as [L1 [L2 [L3 L4]]].
      cbn [self sent] in L1, L2, L3, L4. specialize (L3 F1).
      destruct out as [b|e]; cbn [fst self sent].
      * destruct (update_display_frame (tick_show t) (self w2))
          as [E1 [E2 [E3 [E4 [E5 E6]]]]].
        rewrite E3, E5, E4.
        split; [exact L3 | split; [congruence | split; [exact L4 |]]].
        split; [intros cur _ Hs; rewrite L1; now apply Htrack |].
        split; [| discriminate].
        intros cur Hs Ht. now destruct (Hsame cur Hs Ht).
      * split; [exact L3 | split; [congruence | split; [exact L4 |]]].
        split; [intros cur _ Hs; rewrite L1; now apply Htrack |].
        split; [| discriminate].
        intros cur Hs Ht. now destruct (Hsame cur Hs Ht).
    + cbn [fst self sent].
      destruct (update_display_frame (tick_show t) st1)
        as [E1 [E2 [E3 [E4 [E5 E6]]]]].
      rewrite E3, E5, E4.
      split; [exact F1 | split; [exact F2 | split; [exact Hnil |]]].
      split; [intros cur _ Hs; now apply Htrack |].
      split; [| discriminate].
      intros cur Hs Ht. destruct (Hsame cur Hs Ht) as [-> _].
      split; [reflexivity | split; [| exact Ht]].
      unfold shared. now rewrite D1, D2, D6.
  - cbn [fst self sent]. rewrite D3, D5, D4.
    split; [exact Hl | split; [reflexivity | split; [exact Hnil |]]].
    split; [discriminate |].
    split; [| reflexivity].
    intros cur Hs Ht. split; [reflexivity | split; [| exact Ht]].
    unfold shared. now rewrite D1, D2, D6.
Qed.

(** X17. The loop keeps the overlay ready: after any number of turns
    [is_loading] is false again and [running] is as it was, and the
    turns together have sent at most seven requests each. A turn made
    within two seconds of the last check looks at no window and sends
    nothing: it only refreshes the display and sleeps 0.2 seconds. *)
Theorem update_loop_invariant (turns : list Turn) (last_check : Q)
  (w : World) :
  is_loading (self w) = false ->
  is_loading (self (fst (update_loop turns last_check w))) = false /\
  running (self (fst (update_loop turns last_check w))) = running (self w) /\
  (exists new : list (request * State),
      sent (fst (update_loop turns last_check w)) = sent w ++ new /\
      (List.length new <= 7 * List.length turns)%nat) /\
  (forall t : Turn,
      tick_test t - last_check <= 2 ->
      update_turn t last_check w =
        ({| self := update_display (tick_show t) (self w); sent := sent w |},
         last_check, 1 # 5)).
Proof.
  intros Hl. split; [| split; [| split]].
  - revert last_check w Hl.
    induction turns as [|t turns IH]; intros lc w Hl; [exact Hl |].
    cbn [update_loop].
    destruct (update_turn_frame t lc w Hl) as [H1 _].
    destruct (update_turn t lc w) as [[w' lc'] sl]. now apply IH.
  - revert last_check w Hl.
    induction turns as [|t turns IH]; intros lc w Hl; [reflexivity |].
    cbn [update_loop].
    destruct (update_turn_frame t lc w Hl) as [H1 [H2 _]].
    destruct (update_turn t lc w) as [[w' lc'] sl]. cbn [fst] in *.
    rewrite <- H2. now apply IH.
  - revert last_check w Hl.
    induction turns as [|t turns IH]; intros lc w Hl.
    + exists []. split; [now rewrite app_nil_r | cbn; lia].
    + cbn [update_loop].
      destruct (update_turn_frame t lc w Hl) as [H1 [_ [[n1 [E1 B1]] _]]].
      destruct (update_turn t lc w) as [[w' lc'] sl]. cbn [fst] in *.
      destruct (IH lc' w' H1) as [n2 [E2 B2]].
      exists (n1 ++ n2). split.
      * now rewrite E2, E1, app_assoc.
      * rewrite length_app. cbn [List.length]. lia.
  - intros t Hle.
    destruct (update_turn_frame t last_check w Hl)
      as [_ [_ [_ [_ [_ Hquiet]]]]].
    apply Hquiet. unfold Qlt_bool. apply negb_false_iff, Qle_bool_iff. exact Hle.
Qed.

Lemma update_loop_invariant_witness :
  let t := {| tick_test := 12; tick_mark := 13; tick_show := 14;
              seen := tab;
              load := {| windows := tab; net := net_number;
                         clock := fun n => inject_Z (Z.of_nat n) |} |} in
  is_loading (self (fst (update_loop [t; t] 0 fresh))) = false /\
  running (self (fst (update_loop [t; t] 0 fresh))) = true.
Proof.
  cbv zeta.
  match goal with |- is_loading (self (fst (update_loop ?ts _ _))) = _ /\ _ =>
    destruct (update_loop_invariant ts 0 fresh eq_refl) as [H1 [H2 _]]
  end.
  split; [exact H1 | exact H2].
Defined.

(** X18. A reload is tried once for a title. After a turn that is due
    and samples a title, that title is [last_title] whether the reload
    succeeded, found nothing or raised; and while the sampled title
    stays the one in [last_title], no turn sends a request or changes
    the lyrics, the start time or the current song. *)
Theorem update_loop_no_retry (cur : string) :
  (forall (t : Turn) (last_check : Q) (w : World),
      is_loading (self w) = false ->
      2 < tick_test t - last_check ->
      sampled (seen t) = Some cur ->
      last_title (self (fst (fst (update_turn t last_check w))))
        = Some cur) /\
  (forall (turns : list Turn) (last_check : Q) (w : World),
      is_loading (self w) = false ->
      last_title (self w) = Some cur ->
      Forall (fun t => sampled (seen t) = Some cur) turns ->
      sent (fst (update_loop turns last_check w)) = sent w /\
      shared (self (fst (update_loop turns last_check w)))
        = shared (self w) /\
      last_title (self (fst (update_loop turns last_check w)))
        = Some cur).
Proof.
  split.
  - intros t lc w Hl Hdue Hs.
    destruct (update_turn_frame t lc w Hl) as [_ [_ [_ [Htrack _]]]].
    apply Htrack; [| exact Hs]. now apply Qlt_bool_iff.
  - intros turns. induction turns as [|t turns IH];
      intros lc w Hl Ht Hall; [now repeat split |].
    inversion Hall as [|? ? Hs Hrest]; subst.
    cbn [update_loop].
    destruct (update_turn_frame t lc w Hl)
      as [H1 [_ [_ [_ [Hsame _]]]]].
    destruct (Hsame cur Hs Ht) as [S1 [S2 S3]].
    destruct (update_turn t lc w) as [[w' lc'] sl]. cbn [fst] in *.
    destruct (IH lc' w' H1 S3 Hrest) as [I1 [I2 I3]].
    repeat split; congruence.
Qed.

Lemma update_loop_no_retry_witness :
  let yt := "Rick - Roll (Official Video) - YouTube" in
  let t := {| tick_test := 12; tick_mark := 13; tick_show := 14;
              seen := tab;
              load := {| windows := tab; net := net_number;
                         clock := fun n => inject_Z (Z.of_nat n) |} |} in
  let w := {| self := set_last_title (Some "Other - YouTube") initial;
              sent := [] |} in
  snd (load_song (load t)
         {| self := fst (check_title_change tab (self w)); sent := [] |})
    = Raise AttributeError /\
  last_title (self (fst (fst (update_turn t 0 w)))) = Some yt /\
  sent (fst (update_loop [t; t; t] 0 (fst (fst (update_turn t 0 w)))))
    = sent (fst (fst (update_turn t 0 w))).
Proof.
  cbv zeta. split; [reflexivity |].
  pose proof (update_loop_no_retry "Rick - Roll (Official Video) - YouTube")
    as [Ha Hb].
  split.
  - apply Ha; [reflexivity | reflexivity | reflexivity].
  - apply Hb; [reflexivity | reflexivity |].
    repeat constructor.
Defined.
